(** * The inertial-measurement manager of the visual-inertial odometry pipeline

    A shallow embedding of [src/auv/vio/imu_manager.cpp] (class
    [bm::vio::ImuManager]) and of the Levenberg-Marquardt acceptance rule of
    the pose optimizer, with the properties the specification states about
    them.

    Conventions of the embedding:
    - [timestamp_t] is an integer tick count of up to 64 bits, embedded as
      [Z]; where a tick count meets a [double] without [ConvertToSeconds]
      (line 106) it is converted as C++ does, by rounding to the nearest
      [double];
    - [seconds_t] is a C++ [double], embedded as an exact rational [Q];
      comparisons agree with the IEEE ones on finite values, rounding in
      subtractions and the non-finite values are outside the model;
    - the member variables [params_], [queue_] and [pim_] are the fields of
      an explicit state record that every member function threads through;
    - a call of [PeekFront] on an empty queue is a distinguished outcome,
      not a value. *)

From Stdlib Require Import ZArith QArith Qabs List Bool Lia Lqa Sorted.
Import ListNotations.

Local Open Scope Q_scope.

(** ** Numbers *)

Definition timestamp_t : Type := Z.
Definition seconds_t : Type := Q.

(** [x < y] on doubles, as a boolean. *)
Definition Qltb (x y : Q) : bool := negb (Qle_bool y x).

(** [x != y] on doubles. *)
Definition Qneb (x y : Q) : bool := negb (Qeq_bool x y).

(** The value of an integer converted to [double], as the usual arithmetic
    conversions do: exact below 2^53 in magnitude; above, rounded to the
    nearest multiple of the unit in the last place of its binade, a tie
    going to the even significand. *)
Definition round_to_double (z : Z) : Z :=
  let m := Z.abs z in
  if (m <? 2 ^ 53)%Z then z
  else
    let ulp := (2 ^ (Z.log2 m - 52))%Z in
    let q := (m / ulp)%Z in
    let rem := (m mod ulp)%Z in
    let q' :=
      if (2 * rem <? ulp)%Z then q
      else if (ulp <? 2 * rem)%Z then (q + 1)%Z
           else if Z.even q then q else (q + 1)%Z in
    (Z.sgn z * (q' * ulp))%Z.

(** [static_cast<double>(timestamp)] *)
Definition as_double (t : timestamp_t) : seconds_t :=
  inject_Z (round_to_double t).

(** What the embedding of [seconds_t] as a rational forgets about a
    [double] and the comparison with tick counts needs: the value is below
    2^53 in magnitude, or an integer [a * 2^e] with a significand [a] of at
    most 53 bits.  Every finite [double] is. *)
Definition on_double_grid (t : Q) : Prop :=
  Qabs t < inject_Z (2 ^ 53)
  \/ exists a e : Z,
       (Z.abs a < 2 ^ 53)%Z /\ (0 <= e)%Z /\ t == inject_Z (a * 2 ^ e).

(** ** Measurements *)

Record Vector3d : Type := mkVector3d { vx : Q; vy : Q; vz : Q }.

Definition Vector3d_zero : Vector3d := mkVector3d 0 0 0.

(** [core::ImuMeasurement]: a timestamp, the angular velocity [w] and the
    linear acceleration [a]. *)
Record ImuMeasurement : Type := mkImuMeasurement
  { timestamp : timestamp_t;
    w : Vector3d;
    a : Vector3d }.

Record ImuBias : Type := mkImuBias
  { accelerometer : Vector3d;
    gyroscope : Vector3d }.

Definition ImuBias_zero : ImuBias := mkImuBias Vector3d_zero Vector3d_zero.

(** ** The preintegration accumulator (gtsam)

    [PimC] is gtsam's [PreintegratedCombinedMeasurements], an external
    library.  Its increments (delta rotation, velocity, position and their
    covariance) are a function of the measurements integrated since the last
    reset, so the accumulator is represented by that sequence, oldest first,
    together with the noise parameters and the bias it was seeded with.  The
    accumulator is at identity/zero exactly when the sequence is empty. *)
Module gtsam.

(** One call [integrateMeasurement(measuredAcc, measuredOmega, dt)]. *)
Record Integration : Type := mkIntegration
  { measuredAcc : Vector3d;
    measuredOmega : Vector3d;
    dt : Q }.

(** [PimC::Params]; every covariance the constructor of [ImuManager] sets
    is a multiple of the identity, kept here as its factor. *)
Record Params : Type := mkParams
  { n_gravity : Vector3d;
    biasAccOmegaInt : Q;
    accelerometerCovariance : Q;
    gyroscopeCovariance : Q;
    integrationCovariance : Q;
    biasAccCovariance : Q;
    biasOmegaCovariance : Q }.

Record PimC : Type := mkPimC
  { p : option Params;
    biasHat : ImuBias;
    integrated : list Integration }.

(** [PimC()] *)
Definition PimC_default : PimC := mkPimC None ImuBias_zero [].

(** [PimC(params)]: zero bias, nothing integrated. *)
Definition PimC_of_params (prm : Params) : PimC :=
  mkPimC (Some prm) ImuBias_zero [].

Definition integrateMeasurement (acc omega : Vector3d) (d : Q) (pim : PimC)
  : PimC :=
  mkPimC (p pim) (biasHat pim) (integrated pim ++ [mkIntegration acc omega d]).

Definition resetIntegration (pim : PimC) : PimC :=
  mkPimC (p pim) (biasHat pim) [].

Definition resetIntegrationAndSetBias (bias : ImuBias) (pim : PimC) : PimC :=
  mkPimC (p pim) bias [].

(** The accumulator holds no partial state. *)
Definition at_identity (pim : PimC) : Prop := integrated pim = [].


End gtsam.

Import gtsam.

(** ** The inertial buffer *)

Module ThreadsafeQueue.
Section WithItem.
Context {Item : Type}.

(** Modelled from the spec: [core/thread_safe_queue.hpp] is missing.  The
    buffer is a bounded, time-ordered queue: [Push] appends to the tail
    and evicts the oldest sample when the queue is full (drop-oldest),
    [PeekFront] returns the oldest retained sample without removing it
    and is undefined on an empty queue, [Pop] removes and returns the
    oldest sample, [Empty] reports whether any sample remains. *)
Record t : Type := mk
  { max_queue_size : nat;
    drop_oldest_if_full : bool;
    items : list Item }.

Definition with_items (q : t) (l : list Item) : t :=
  mk (max_queue_size q) (drop_oldest_if_full q) l.

Definition create (n : nat) (drop : bool) : t := mk n drop [].

Definition Empty (q : t) : bool :=
  match items q with [] => true | _ :: _ => false end.

Definition PeekFront (q : t) : option Item := hd_error (items q).

Definition Pop (q : t) : option (Item * t) :=
  match items q with
  | [] => None
  | x :: rest => Some (x, with_items q rest)
  end.

Definition Push (x : Item) (q : t) : t :=
  if (length (items q) <? max_queue_size q)%nat
  then with_items q (items q ++ [x])
  else if drop_oldest_if_full q
       then with_items q (tl (items q) ++ [x])
       else q.
End WithItem.
Arguments t : clear implicits.
End ThreadsafeQueue.

(** ** The manager *)

(** [ImuManager::Params] *)
Record Params : Type := mkParams
  { max_queue_size : nat;
    allowed_misalignment_sec : Q;
    accel_noise_sigma : Q;
    gyro_noise_sigma : Q;
    accel_bias_rw_sigma : Q;
    gyro_bias_rw_sigma : Q;
    n_gravity : Vector3d }.

Record PimResult : Type := mkPimResult
  { valid : bool;
    from_time : seconds_t;
    to_time : seconds_t;
    pim : PimC }.

Record ImuManager : Type := mkImuManager
  { params_ : Params;
    queue_ : ThreadsafeQueue.t ImuMeasurement;
    pim_params_ : gtsam.Params;
    pim_ : PimC }.

Definition buffer (s : ImuManager) : list ImuMeasurement :=
  ThreadsafeQueue.items (queue_ s).

Definition set_queue (s : ImuManager) (q : ThreadsafeQueue.t ImuMeasurement)
  : ImuManager :=
  mkImuManager (params_ s) q (pim_params_ s) (pim_ s).

Definition set_buffer (s : ImuManager) (l : list ImuMeasurement) : ImuManager :=
  set_queue s (ThreadsafeQueue.with_items (queue_ s) l).

Definition set_pim (s : ImuManager) (pm : PimC) : ImuManager :=
  mkImuManager (params_ s) (queue_ s) (pim_params_ s) pm.

(** [ImuManager::ImuManager(const Params&)] *)
Definition ImuManager_new (prm : Params) : ImuManager :=
  let measured_acc_cov := accel_noise_sigma prm ^ 2 in
  let measured_omega_cov := gyro_noise_sigma prm ^ 2 in
  let integration_error_cov := 1 # 100000000 in
  let bias_acc_cov := accel_bias_rw_sigma prm ^ 2 in
  let bias_omega_cov := gyro_bias_rw_sigma prm ^ 2 in
  let bias_acc_omega_int := 1 # 100000 in
  let pp := gtsam.mkParams (n_gravity prm) bias_acc_omega_int measured_acc_cov
              measured_omega_cov integration_error_cov bias_acc_cov
              bias_omega_cov in
  mkImuManager prm (ThreadsafeQueue.create (max_queue_size prm) true) pp
    (PimC_of_params pp).

(** [ImuManager::Push] *)
Definition Push (imu : ImuMeasurement) (s : ImuManager) : ImuManager :=
  set_queue s (ThreadsafeQueue.Push imu (queue_ s)).

(** [ImuManager::ResetAndUpdateBias] *)
Definition ResetAndUpdateBias (bias : ImuBias) (s : ImuManager) : ImuManager :=
  set_pim s (resetIntegrationAndSetBias bias (pim_ s)).

(** The loop of [ImuManager::DiscardBefore]: the raw [timestamp] field is
    compared with [time], converted to [double] by the usual arithmetic
    conversions; [ConvertToSeconds] is not called. *)
Fixpoint discard_loop (time : seconds_t) (l : list ImuMeasurement)
  : list ImuMeasurement :=
  match l with
  | [] => []
  | m :: rest =>
      if Qltb (as_double (timestamp m)) time then discard_loop time rest else l
  end.

(** [ImuManager::DiscardBefore] *)
Definition DiscardBefore (time : seconds_t) (s : ImuManager) : ImuManager :=
  set_buffer s (discard_loop time (buffer s)).

(** The outcome of a member function that may peek the queue. *)
Inductive outcome (A : Type) : Type :=
| Returned (r : A) (s : ImuManager)
| PeekFrontOnEmpty.
Arguments Returned {A} r s.
Arguments PeekFrontOnEmpty {A}.

(** The four [return] statements of [Preintegrate], in source order. *)
Inductive ReturnSite : Type :=
| NoMeasurements        (* line 44 *)
| FromMisaligned        (* line 58 *)
| ToMisaligned          (* line 83 *)
| Integrated.           (* line 94 *)

(** [core/timestamp.hpp] is missing: the conversion of a timestamp to seconds
    and the two sentinel times are parameters of the development. *)
Class Timestamps : Type := mkTimestamps
  { ConvertToSeconds : timestamp_t -> seconds_t;
    kMinSeconds : seconds_t;
    kMaxSeconds : seconds_t }.

Section Preintegration.

Context `{Timestamps}.

Definition seconds_of (m : ImuMeasurement) : seconds_t :=
  ConvertToSeconds (timestamp m).

(** Lines 49-51: [while (ConvertToSeconds(queue_.PeekFront().timestamp) <=
    from_time) imu = queue_.Pop();] on the queue contents [l], [imu] being
    the sample popped last.  [None] when [PeekFront] meets an empty queue. *)
Fixpoint anchor_loop (from : seconds_t) (imu : ImuMeasurement)
  (l : list ImuMeasurement) : option (ImuMeasurement * list ImuMeasurement) :=
  match l with
  | [] => None
  | m :: rest =>
      if Qle_bool (seconds_of m) from then anchor_loop from m rest
      else Some (imu, l)
  end.

(** Line 56. *)
Definition offset_from_sec (from earliest_imu_sec : seconds_t) : Q :=
  if Qneb from kMinSeconds then Qabs (earliest_imu_sec - from) else 0.

(** Line 80. *)
Definition offset_to_sec (to latest_imu_sec : seconds_t) : Q :=
  if Qneb to kMaxSeconds then Qabs (latest_imu_sec - to) else 0.

(** Lines 64-66 and 87-89: a step at constant rate with the readings of
    [imu], skipped when the offset is not positive. *)
Definition integrate_offset (imu : ImuMeasurement) (offset : Q) (pm : PimC)
  : PimC :=
  if Qltb 0 offset then integrateMeasurement (a imu) (w imu) offset pm
  else pm.

(** Lines 70-75: pops and integrates the samples in front of the queue
    whose time is below [to]; returns the remaining queue contents, the
    sample popped last and the accumulator. *)
Fixpoint integrate_loop (to : seconds_t) (imu : ImuMeasurement)
  (last_imu_time_sec : seconds_t) (pm : PimC) (l : list ImuMeasurement)
  : list ImuMeasurement * ImuMeasurement * PimC :=
  match l with
  | [] => (l, imu, pm)
  | m :: rest =>
      if Qltb (seconds_of m) to then
        let d := seconds_of m - last_imu_time_sec in
        let pm' :=
          if Qltb 0 d then integrateMeasurement (a m) (w m) d pm else pm in
        integrate_loop to m (seconds_of m) pm' rest
      else (l, imu, pm)
  end.

Definition failure : PimResult :=
  mkPimResult false kMinSeconds kMaxSeconds PimC_default.

(** Where the first half of [Preintegrate] (lines 43-66) ends: at a
    [return], at [PeekFront] on an empty queue, or at line 68 with the
    anchor sample in [imu]. *)
Inductive start_phase : Type :=
| Exit (o : outcome (ReturnSite * PimResult))
| Continue (imu : ImuMeasurement) (s : ImuManager).

(** Lines 43-66. *)
Definition Preintegrate_start (from : seconds_t) (s : ImuManager)
  : start_phase :=
  if ThreadsafeQueue.Empty (queue_ s) then
    Exit (Returned (NoMeasurements, failure) s)
  else
    match ThreadsafeQueue.Pop (queue_ s) with
    | None => Exit PeekFrontOnEmpty (* not reached: the queue is not empty *)
    | Some (imu0, q0) =>
        match anchor_loop from imu0 (ThreadsafeQueue.items q0) with
        | None => Exit PeekFrontOnEmpty
        | Some (imu, l1) =>
            let s1 := set_buffer s l1 in
            let earliest_imu_sec := seconds_of imu in
            let offset := offset_from_sec from earliest_imu_sec in
            if Qltb (allowed_misalignment_sec (params_ s)) offset then
              Exit (Returned (FromMisaligned, failure) s1)
            else
              Continue imu (set_pim s1 (integrate_offset imu offset (pim_ s1)))
        end
    end.

(** Lines 68-94, entered with the anchor sample [imu]. *)
Definition Preintegrate_finish (to : seconds_t) (imu : ImuMeasurement)
  (s : ImuManager) : ReturnSite * PimResult * ImuManager :=
  let earliest_imu_sec := seconds_of imu in
  let '(l2, imu', pm) :=
    integrate_loop to imu earliest_imu_sec (pim_ s) (buffer s) in
  let s2 := set_pim (set_buffer s l2) pm in
  let latest_imu_sec := seconds_of imu' in
  let offset := offset_to_sec to latest_imu_sec in
  if Qltb (allowed_misalignment_sec (params_ s)) offset then
    (ToMisaligned, failure, set_pim s2 (resetIntegration (pim_ s2)))
  else
    let s3 := set_pim s2 (integrate_offset imu' offset (pim_ s2)) in
    let out := mkPimResult true earliest_imu_sec latest_imu_sec (pim_ s3) in
    (Integrated, out, set_pim s3 (resetIntegration (pim_ s3))).

(** [ImuManager::Preintegrate], with the [return] statement it left by. *)
Definition Preintegrate_at (from to : seconds_t) (s : ImuManager)
  : outcome (ReturnSite * PimResult) :=
  match Preintegrate_start from s with
  | Exit o => o
  | Continue imu s1 =>
      let '(site, r, s') := Preintegrate_finish to imu s1 in
      Returned (site, r) s'
  end.

(** [ImuManager::Preintegrate] *)
Definition Preintegrate (from to : seconds_t) (s : ImuManager)
  : outcome PimResult :=
  match Preintegrate_at from to s with
  | Returned (_, r) s' => Returned r s'
  | PeekFrontOnEmpty => PeekFrontOnEmpty
  end.

(** The states a manager can be in: built by the constructor and driven
    through its public member functions. *)
Inductive reachable : ImuManager -> Prop :=
| reach_new : forall prm, reachable (ImuManager_new prm)
| reach_Push : forall imu s, reachable s -> reachable (Push imu s)
| reach_Preintegrate : forall from to s r s',
    reachable s -> Preintegrate from to s = Returned r s' -> reachable s'
| reach_ResetAndUpdateBias : forall bias s,
    reachable s -> reachable (ResetAndUpdateBias bias s)
| reach_DiscardBefore : forall time s,
    reachable s -> reachable (DiscardBefore time s).

(** The synthetic step of lines 64-66 has been appended to the accumulator
    between [s] and [s1]: the readings of [imu] over the gap between
    [from] and the time of [imu]. *)
Definition start_step_performed (from : seconds_t) (imu : ImuMeasurement)
  (s s1 : ImuManager) : Prop :=
  integrated (pim_ s1) =
  integrated (pim_ s)
    ++ [mkIntegration (a imu) (w imu) (Qabs (seconds_of imu - from))].

(** No sample of the buffer lies within the tolerance of the time [t]. *)
Definition none_within_tolerance (t : seconds_t) (s : ImuManager) : Prop :=
  Forall (fun m => allowed_misalignment_sec (params_ s)
                   < Qabs (seconds_of m - t)) (buffer s).

(** A sample later than [from] is in front of the queue contents [l]. *)
Definition front_after (from : seconds_t) (l : list ImuMeasurement) : Prop :=
  exists m rest, l = m :: rest /\ from < seconds_of m.

(** No sample below [to] is in front of the queue contents [l]. *)
Definition front_not_below (to : seconds_t) (l : list ImuMeasurement) : Prop :=
  match l with [] => True | m :: _ => to <= seconds_of m end.

End Preintegration.

(** ** A concrete time base

    Nanosecond ticks, [kMinSeconds] at zero and [kMaxSeconds] at the
    largest finite double; used to run the manager on concrete inputs. *)
#[export] Instance nanoseconds : Timestamps :=
  {| ConvertToSeconds := fun t => inject_Z t / 1000000000;
     kMinSeconds := 0;
     kMaxSeconds := inject_Z (2 ^ 1024 - 2 ^ 971)%Z |}.

Definition sample_at (sec : Z) : ImuMeasurement :=
  mkImuMeasurement (sec * 1000000000)%Z
    (mkVector3d 0 0 (1 # 10)) (mkVector3d 0 0 (981 # 100)).

Definition test_params (tolerance : Q) : Params :=
  mkParams 1000 tolerance (1 # 100) (1 # 1000) (1 # 1000) (1 # 10000)
    (mkVector3d 0 0 (981 # 100)).

(** A manager with the given tolerance after pushing samples at the given
    whole seconds. *)
Definition manager_with (tolerance : Q) (secs : list Z) : ImuManager :=
  fold_left (fun s t => Push (sample_at t) s) secs
    (ImuManager_new (test_params tolerance)).

(** A manager with the given tolerance after pushing samples with the given
    raw tick counts. *)
Definition manager_with_ticks (tolerance : Q) (ticks : list Z) : ImuManager :=
  fold_left
    (fun s t =>
       Push (mkImuMeasurement t (mkVector3d 0 0 (1 # 10))
               (mkVector3d 0 0 (981 # 100))) s)
    ticks (ImuManager_new (test_params tolerance)).

(** A manager with an empty buffer whose accumulator holds one integrated
    measurement. *)
Definition manager_with_stale_accumulator : ImuManager :=
  let s := manager_with 1 [] in
  set_pim s
    (integrateMeasurement (a (sample_at 1)) (w (sample_at 1)) (1 # 2) (pim_ s)).


(** ** The Levenberg-Marquardt pose optimizer *)

Module vo.

Section LevenbergMarquardt.

(** The residual model shared by the two optimizers lives in
    [vo/optimization.cpp], which is missing: poses, the total weighted
    squared reprojection error of a pose, the solution of the damped
    normal equations and the composition of an increment onto a pose are
    parameters, as are the two damping updates. *)
Variables Pose Increment : Type.
Variable total_error : Pose -> Q.
Variable solve_damped : Q -> Pose -> Increment.
Variable compose : Increment -> Pose -> Pose.
Variables increase_damping decrease_damping : Q -> Q.

(** The spec is silent on a step that leaves the error as it is; the
    flag says whether such a step is taken. *)
Variable accept_equal : bool.

Record LMState : Type := mkLMState
  { T_01 : Pose;
    error : Q;
    lambda : Q }.

Definition reduces_error (e_new e_old : Q) : bool :=
  if accept_equal then Qle_bool e_new e_old else Qltb e_new e_old.

Definition proposal (st : LMState) : Pose :=
  compose (solve_damped (lambda st) (T_01 st)) (T_01 st).

(** Modelled from the spec: one iteration of the missing
    [OptimizePoseLevenbergMarquardt].  "Each proposed step is evaluated:
    if it reduces total error, the step is accepted, the pose is updated,
    and damping is decreased; if it increases error, the step is
    rejected, the pose is left unchanged, and damping is increased."
    The boolean tells whether the step was accepted. *)
Definition lm_iteration (st : LMState) : bool * LMState :=
  let T' := proposal st in
  let e' := total_error T' in
  if reduces_error e' (error st)
  then (true, mkLMState T' e' (decrease_damping (lambda st)))
  else (false, mkLMState (T_01 st) (error st) (increase_damping (lambda st))).

(** Modelled from the spec: the iteration loop of the missing
    [OptimizePoseLevenbergMarquardt], as the states after each iteration.
    It ends when the iteration count reaches [max_iters], when the error
    falls below [min_error], or when the decrease of the error between
    consecutive iterations falls below [min_error_delta]; a rejected step
    is retried with the new damping. *)
Fixpoint lm_iterations (max_iters : nat) (min_error min_error_delta : Q)
  (st : LMState) : list LMState :=
  match max_iters with
  | O => []
  | S n =>
      let '(accepted, st') := lm_iteration st in
      if accepted
         && (Qltb (error st') min_error
             || Qltb (Qabs (error st - error st')) min_error_delta)
      then [st']
      else st' :: lm_iterations n min_error min_error_delta st'
  end.

(** Modelled from the spec: the missing [OptimizePoseLevenbergMarquardt],
    from an initial pose and damping; returns the iterations used, the
    final pose and its error. *)
Definition OptimizePoseLevenbergMarquardt (max_iters : nat)
  (min_error min_error_delta : Q) (T0 : Pose) (lambda0 : Q)
  : nat * Pose * Q :=
  let st0 := mkLMState T0 (total_error T0) lambda0 in
  let run := lm_iterations max_iters min_error min_error_delta st0 in
  let final := last run st0 in
  (length run, T_01 final, error final).

(** What the spec asks of one iteration from [st] to [st']. *)
Definition lm_step_ok (st st' : LMState) : Prop :=
  (T_01 st' = proposal st
   /\ error st' = total_error (proposal st)
   /\ error st' <= error st
   /\ lambda st' = decrease_damping (lambda st))
  \/
  (T_01 st' = T_01 st
   /\ error st' = error st
   /\ lambda st' = increase_damping (lambda st)
   /\ lambda st < lambda st'
   /\ error st <= total_error (proposal st)).

(** The recorded error of a state is the total error of its pose. *)
Definition lm_consistent (st : LMState) : Prop :=
  error st = total_error (T_01 st).

(** The error of [y] is not above the error of [x]. *)
Definition lm_not_above (x y : LMState) : Prop := error y <= error x.

(** [R] holds between every two consecutive elements of [x :: l]. *)
Fixpoint chain (R : LMState -> LMState -> Prop) (x : LMState)
  (l : list LMState) : Prop :=
  match l with
  | [] => True
  | y :: l' => R x y /\ chain R y l'
  end.

End LevenbergMarquardt.

Arguments T_01 {Pose}.
Arguments error {Pose}.
Arguments lambda {Pose}.

(** A one-dimensional instance: the pose is a rational, the error its
    square, the damped step overshoots under small damping: it moves the
    pose [x] to [x - 3 x / (1 + lambda)]. *)
Definition toy_error (x : Q) : Q := x * x.
Definition toy_solve (l x : Q) : Q := - (3 * x / (1 + l)).
Definition toy_compose (d x : Q) : Q := x + d.
Definition toy_increase (l : Q) : Q := 2 * l.
Definition toy_decrease (l : Q) : Q := (1 # 3) * l.

End vo.

(** ** Time order of the buffer *)

Section BufferOrder.

Context `{Timestamps}.

(** The queue contents [l] are in non-decreasing order of time. *)
Definition time_ordered (l : list ImuMeasurement) : Prop :=
  StronglySorted (fun x y => seconds_of x <= seconds_of y) l.

(** What a caller observes of a call besides the increments: the [return]
    statement, the validity and the time range of the result, and the
    samples left in the buffer. *)
Definition call_summary (o : outcome (ReturnSite * PimResult))
  : option (ReturnSite * bool * seconds_t * seconds_t * list ImuMeasurement) :=
  match o with
  | Returned (site, r) s' =>
      Some (site, valid r, from_time r, to_time r, buffer s')
  | PeekFrontOnEmpty => None
  end.

End BufferOrder.

(** Every measurement held by the accumulator was integrated over a
    strictly positive duration. *)
Definition positive_durations (pm : PimC) : Prop :=
  Forall (fun i => 0 < dt i) (integrated pm).

(** The queue contents [l] are in non-decreasing order of raw timestamp. *)
Definition timestamp_ordered (l : list ImuMeasurement) : Prop :=
  StronglySorted (fun x y => (timestamp x <= timestamp y)%Z) l.

(** The test of line 106, negated: the sample is not below [time]. *)
Definition not_before (time : seconds_t) (m : ImuMeasurement) : bool :=
  negb (Qltb (as_double (timestamp m)) time).

(** ** The object mesher ([mesher/object_mesher.cpp]) *)

Module mesher.

(** The rectangular kernel built by [cv::getStructuringElement(cv::MORPH_RECT,
    cv::Size(w, h), cv::Point(x, y))]: its size and its anchor. *)
Record StructuringElement : Type := mkStructuringElement
  { kernel_width : Z;
    kernel_height : Z;
    anchor_x : Z;
    anchor_y : Z }.

(** The value of a 32-bit [int] after an operation whose exact result is
    [z]: the result wraps around in two's complement. *)
Definition int32_wrap (z : Z) : Z := ((z + 2 ^ 31) mod 2 ^ 32 - 2 ^ 31)%Z.

(** Lines 25-33 of [EstimateForegroundMask]: the two [CHECK]s on the
    arguments and the kernel handed to [cv::morphologyEx].  The arguments
    are 32-bit [int]s, [/] is the truncating division of C++, and the width
    of line 28 wraps around when it overflows; [None] when a [CHECK] fails,
    which aborts the process.  The image operations of lines 36-48 belong
    to OpenCV and are not modelled. *)
Definition EstimateForegroundMask_kernel (ksize downsize : Z)
  : option StructuringElement :=
  if (1 <=? downsize)%Z && (downsize <=? 8)%Z then
    let scaled_ksize := Z.quot ksize downsize in
    if (1 <? scaled_ksize)%Z then
      let kwidth := int32_wrap (2 * scaled_ksize + 1) in
      Some (mkStructuringElement kwidth kwidth scaled_ksize scaled_ksize)
    else None
  else None.

(** The largest [int]. *)
Definition INT_MAX : Z := (2 ^ 31 - 1)%Z.

(** The smallest [int]. *)
Definition INT_MIN : Z := (- 2 ^ 31)%Z.

Section EdgePixels.

(** OpenCV is external: an image type, the positions a
    [cv::LineIterator(mask, a, b, 8, false)] visits, in order ([it.count] is
    their number), and the pixel read [mask.at<uint8_t>(pos)]. *)
Variables Image1b Point2f Point : Type.
Variable LineIterator : Image1b -> Point2f -> Point2f -> list Point.
Variable at_uint8 : Image1b -> Point -> Z.

(** [CountEdgePixels], lines 95-110; returns [(edge_sum, edge_length)]. *)
Definition CountEdgePixels (a b : Point2f) (mask : Image1b) : Z * Z :=
  let it := LineIterator mask a b in
  let edge_length := Z.of_nat (length it) in
  let edge_sum :=
    fold_left
      (fun edge_sum pos =>
         let v := at_uint8 mask pos in
         (edge_sum + (if (0 <? v)%Z then 1 else 0))%Z)
      it 0%Z in
  (edge_sum, edge_length).

End EdgePixels.

End mesher.

(** * Properties *)

(** ** Comparisons *)

Lemma Qltb_true (x y : Q) : Qltb x y = true <-> x < y.
Proof.
  unfold Qltb. rewrite negb_true_iff, <- not_true_iff_false, Qle_bool_iff.
  split; [apply Qnot_le_lt | apply Qlt_not_le].
Qed.

Lemma Qltb_false (x y : Q) : Qltb x y = false <-> y <= x.
Proof.
  unfold Qltb. rewrite negb_false_iff. apply Qle_bool_iff.
Qed.

Lemma Qneb_true (x y : Q) : Qneb x y = true <-> ~ x == y.
Proof.
  unfold Qneb. rewrite negb_true_iff, <- not_true_iff_false, Qeq_bool_iff.
  reflexivity.
Qed.

Lemma Qneb_false (x y : Q) : Qneb x y = false <-> x == y.
Proof.
  unfold Qneb. rewrite negb_false_iff. apply Qeq_bool_iff.
Qed.

(** ** The accumulator *)

Lemma integrateMeasurement_not_at_identity acc omega d pm :
  ~ at_identity (integrateMeasurement acc omega d pm).
Proof.
  unfold at_identity; simpl. intros E. apply app_eq_nil in E.
  destruct E as [_ E]. discriminate E.
Qed.

Lemma resetIntegration_at_identity pm : at_identity (resetIntegration pm).
Proof. reflexivity. Qed.

Lemma resetIntegration_integrateMeasurement acc omega d pm :
  resetIntegration (integrateMeasurement acc omega d pm) = resetIntegration pm.
Proof. reflexivity. Qed.

(** ** The conversion of tick counts to double *)

(** The shape of a rounded tick count of magnitude 2^53 or more. *)
Lemma round_to_double_shape (z : Z) :
  (2 ^ 53 <= Z.abs z)%Z ->
  exists L q q' r : Z,
    (53 <= L /\ Z.abs z = 2 ^ (L - 52) * q + r
     /\ 0 <= r < 2 ^ (L - 52)
     /\ 2 ^ 52 <= q < 2 ^ 53
     /\ (q' = q /\ 2 * r <= 2 ^ (L - 52)
         \/ q' = q + 1 /\ 2 ^ (L - 52) <= 2 * r)
     /\ round_to_double z = Z.sgn z * (q' * 2 ^ (L - 52)))%Z.
Proof.
  intros Hbig. unfold round_to_double.
  destruct (Z.abs z <? 2 ^ 53)%Z eqn:E; [apply Z.ltb_lt in E; lia|].
  assert (Hpos : (0 < Z.abs z)%Z) by (assert (0 < 2 ^ 53)%Z by reflexivity; lia).
  pose proof (Z.log2_spec _ Hpos) as [Hlo Hhi].
  set (L := Z.log2 (Z.abs z)) in *.
  assert (HL : (53 <= L)%Z).
  { destruct (Z_lt_le_dec L 53) as [C|C]; [|exact C]. exfalso.
    assert ((2 ^ Z.succ L <= 2 ^ 53)%Z) by (apply Z.pow_le_mono_r; lia).
    lia. }
  set (ulp := (2 ^ (L - 52))%Z).
  assert (Hulp : (0 < ulp)%Z) by (apply Z.pow_pos_nonneg; lia).
  assert (H2L : (2 ^ L = 2 ^ 52 * ulp)%Z).
  { unfold ulp. rewrite <- Z.pow_add_r by lia. f_equal. lia. }
  pose proof (Z.div_mod (Z.abs z) ulp ltac:(lia)) as Hdm.
  pose proof (Z.mod_pos_bound (Z.abs z) ulp Hulp) as Hr.
  assert (Hq : (2 ^ 52 <= Z.abs z / ulp < 2 ^ 53)%Z).
  { split.
    - apply Z.div_le_lower_bound; [exact Hulp|]. lia.
    - apply Z.div_lt_upper_bound; [exact Hulp|].
      replace (Z.succ L) with (L + 1)%Z in Hhi by lia.
      rewrite Z.pow_add_r in Hhi by lia. change (2 ^ 1)%Z with 2%Z in Hhi.
      change (2 ^ 53)%Z with (2 ^ 52 * 2)%Z. lia. }
  exists L, (Z.abs z / ulp)%Z.
  destruct (2 * (Z.abs z mod ulp) <? ulp)%Z eqn:E1.
  - apply Z.ltb_lt in E1.
    exists (Z.abs z / ulp)%Z, (Z.abs z mod ulp)%Z.
    repeat split; lia.
  - apply Z.ltb_ge in E1.
    destruct (ulp <? 2 * (Z.abs z mod ulp))%Z eqn:E2.
    + exists (Z.abs z / ulp + 1)%Z, (Z.abs z mod ulp)%Z.
      repeat split; lia.
    + apply Z.ltb_ge in E2.
      destruct (Z.even (Z.abs z / ulp)).
      * exists (Z.abs z / ulp)%Z, (Z.abs z mod ulp)%Z.
        repeat split; lia.
      * exists (Z.abs z / ulp + 1)%Z, (Z.abs z mod ulp)%Z.
        repeat split; lia.
Qed.

Lemma pow2_le_inv (x y : Z) :
  (0 <= x)%Z -> (0 <= y)%Z -> (2 ^ x < 2 ^ (y + 1))%Z -> (x <= y)%Z.
Proof.
  intros Hx Hy H. apply Z.pow_lt_mono_r_iff in H; lia.
Qed.

(** An integer of the double grid whose magnitude reaches [2^52 * 2^s] is a
    multiple of [2^s]. *)
Lemma double_integer_multiple (a e s : Z) :
  (Z.abs a < 2 ^ 53)%Z -> (0 <= e)%Z -> (0 <= s)%Z ->
  (2 ^ 52 * 2 ^ s <= Z.abs (a * 2 ^ e))%Z ->
  exists k, (a * 2 ^ e = k * 2 ^ s)%Z.
Proof.
  intros Ha He Hs Hbig.
  assert (Hpe : (0 < 2 ^ e)%Z) by (apply Z.pow_pos_nonneg; lia).
  assert (Hps : (0 < 2 ^ s)%Z) by (apply Z.pow_pos_nonneg; lia).
  rewrite Z.abs_mul, (Z.abs_eq (2 ^ e)) in Hbig by lia.
  assert (Hlt : (2 ^ s < 2 ^ (e + 1))%Z).
  { rewrite Z.pow_add_r by lia. change (2 ^ 1)%Z with 2%Z.
    assert (H53 : (2 ^ 53 = 2 * 2 ^ 52)%Z) by reflexivity. nia. }
  assert (Hse : (s <= e)%Z) by (apply pow2_le_inv; assumption).
  exists (a * 2 ^ (e - s))%Z.
  rewrite <- Z.mul_assoc, <- Z.pow_add_r by lia. do 2 f_equal. lia.
Qed.

(** The key fact on rounding: a double above the rounded tick count is above
    the tick count itself. *)
Lemma round_to_double_below (z : Z) (t : Q) :
  on_double_grid t ->
  inject_Z (round_to_double z) < t -> inject_Z z < t.
Proof.
  intros Hgrid Hlt.
  destruct (Z_lt_le_dec (Z.abs z) (2 ^ 53)) as [Hsmall|Hbig].
  { unfold round_to_double in Hlt.
    apply Z.ltb_lt in Hsmall. rewrite Hsmall in Hlt. exact Hlt. }
  destruct (round_to_double_shape z Hbig)
    as [L [q [q' [r [HL [Hz [Hr [Hq [Hq' HR]]]]]]]]].
  set (ulp := (2 ^ (L - 52))%Z) in *.
  assert (Hulp : (0 < ulp)%Z) by (apply Z.pow_pos_nonneg; lia).
  assert (H53 : (2 ^ 53 <= 2 ^ 52 * ulp)%Z).
  { assert (2 ^ 1 <= ulp)%Z by (apply Z.pow_le_mono_r; lia).
    change (2 ^ 53)%Z with (2 ^ 52 * 2 ^ 1)%Z. nia. }
  destruct (Z_le_gt_dec z (round_to_double z)) as [Hle|Hgt].
  { apply Qle_lt_trans with (inject_Z (round_to_double z)); [|exact Hlt].
    rewrite <- Zle_Qle. exact Hle. }
  destruct Hgrid as [Habs|[a [e [Ha [He Ht]]]]].
  - (* a double below 2^53 in magnitude *)
    apply Qabs_Qlt_condition in Habs. destruct Habs as [Hlo Hhi].
    destruct (Z_lt_le_dec z 0) as [Hneg|Hnn].
    + apply Qle_lt_trans with (- inject_Z (2 ^ 53)); [|exact Hlo].
      rewrite <- inject_Z_opp, <- Zle_Qle. lia.
    + exfalso. rewrite Z.abs_eq in Hz by lia.
      rewrite Z.sgn_pos in HR by lia.
      assert (Hge : (2 ^ 53 <= round_to_double z)%Z) by nia.
      rewrite Zle_Qle in Hge. apply (Qlt_irrefl t).
      apply Qlt_le_trans with (inject_Z (2 ^ 53)); [exact Hhi|].
      apply Qle_trans with (inject_Z (round_to_double z)); [exact Hge|].
      apply Qlt_le_weak. exact Hlt.
  - (* an integer of the grid *)
    rewrite Ht in Hlt |- *. rewrite <- Zlt_Qlt in Hlt |- *.
    destruct (Z_lt_le_dec z 0) as [Hneg|Hnn].
    + rewrite Z.abs_neq in Hz by lia. rewrite Z.sgn_neg in HR by lia.
      destruct (Z_lt_le_dec (- (2 ^ 52 * ulp)) (a * 2 ^ e)) as [Hin|Hout];
        [nia|].
      destruct (double_integer_multiple a e (L - 52) Ha He ltac:(lia))
        as [k Hk]; [fold ulp; lia|].
      fold ulp in Hk. rewrite Hk in Hlt |- *.
      assert (Hq1 : (q' = q + 1 /\ 0 < r)%Z) by (destruct Hq' as [[-> ?]|[-> ?]]; nia).
      destruct Hq1 as [-> Hr0]. rewrite HR in Hlt.
      assert (Hk1 : (- (q + 1) < k)%Z).
      { apply (Z.mul_lt_mono_pos_r ulp); lia. }
      assert (Hk2 : (- q * ulp <= k * ulp)%Z).
      { apply Z.mul_le_mono_nonneg_r; lia. }
      lia.
    + rewrite Z.abs_eq in Hz by lia. rewrite Z.sgn_pos in HR by lia.
      assert (Hq1 : (q' = q /\ 0 < r)%Z) by (destruct Hq' as [[-> ?]|[-> ?]]; nia).
      destruct Hq1 as [-> Hr0]. rewrite HR in Hlt.
      destruct (double_integer_multiple a e (L - 52) Ha He ltac:(lia))
        as [k Hk]; [fold ulp; nia|].
      fold ulp in Hk. rewrite Hk in Hlt |- *.
      assert (Hk1 : (q < k)%Z).
      { apply (Z.mul_lt_mono_pos_r ulp); lia. }
      assert (Hk2 : ((q + 1) * ulp <= k * ulp)%Z).
      { apply Z.mul_le_mono_nonneg_r; lia. }
      lia.
Qed.

Lemma round_to_double_opp (z : Z) :
  round_to_double (- z) = (- round_to_double z)%Z.
Proof.
  unfold round_to_double. rewrite Z.abs_opp, Z.sgn_opp.
  destruct (Z.abs z <? 2 ^ 53)%Z; [reflexivity|]. lia.
Qed.

Lemma round_to_double_nonneg_mono (z1 z2 : Z) :
  (0 <= z1 <= z2)%Z -> (round_to_double z1 <= round_to_double z2)%Z.
Proof.
  intros [H0 Hle].
  destruct (Z.eq_dec z1 z2) as [->|Hne]; [lia|].
  destruct (Z_lt_le_dec (Z.abs z2) (2 ^ 53)) as [Hs2|Hb2].
  { unfold round_to_double.
    replace (Z.abs z2 <? 2 ^ 53)%Z with true by (symmetry; apply Z.ltb_lt; lia).
    replace (Z.abs z1 <? 2 ^ 53)%Z with true by (symmetry; apply Z.ltb_lt; lia).
    exact Hle. }
  destruct (round_to_double_shape z2 Hb2)
    as [L2 [q2 [q2' [r2 [HL2 [Hz2 [Hr2 [Hq2 [Hq2' HR2]]]]]]]]].
  rewrite Z.abs_eq in Hz2 by lia. rewrite Z.sgn_pos in HR2 by lia.
  assert (Hu2 : (2 ^ 1 <= 2 ^ (L2 - 52))%Z) by (apply Z.pow_le_mono_r; lia).
  change (2 ^ 1)%Z with 2%Z in Hu2.
  destruct (Z_lt_le_dec (Z.abs z1) (2 ^ 53)) as [Hs1|Hb1].
  { unfold round_to_double at 1.
    replace (Z.abs z1 <? 2 ^ 53)%Z with true by (symmetry; apply Z.ltb_lt; lia).
    change (2 ^ 53)%Z with (2 ^ 52 * 2)%Z in Hs1. nia. }
  destruct (round_to_double_shape z1 Hb1)
    as [L1 [q1 [q1' [r1 [HL1 [Hz1 [Hr1 [Hq1 [Hq1' HR1]]]]]]]]].
  rewrite Z.abs_eq in Hz1 by lia. rewrite Z.sgn_pos in HR1 by lia.
  rewrite HR1, HR2.
  destruct (Z_lt_le_dec L2 L1) as [Hlt|HL].
  { exfalso.
    assert (Hp : (2 * 2 ^ (L2 - 52) <= 2 ^ (L1 - 52))%Z).
    { replace (L1 - 52)%Z with ((L1 - L2 - 1) + (1 + (L2 - 52)))%Z by lia.
      rewrite Z.pow_add_r, (Z.pow_add_r 2 1) by lia. change (2 ^ 1)%Z with 2%Z.
      assert (0 < 2 ^ (L1 - L2 - 1))%Z by (apply Z.pow_pos_nonneg; lia).
      assert (0 < 2 ^ (L2 - 52))%Z by (apply Z.pow_pos_nonneg; lia).
      nia. }
    nia. }
  destruct (Z.eq_dec L1 L2) as [->|Hne12].
  - set (ulp := (2 ^ (L2 - 52))%Z) in *.
    assert (Hq12 : (q1 <= q2)%Z) by nia.
    destruct (Z.eq_dec q1 q2) as [->|Hq].
    + assert (r1 < r2)%Z by nia.
      assert (q1' <= q2')%Z by (destruct Hq1' as [[-> ?]|[-> ?]];
                                destruct Hq2' as [[-> ?]|[-> ?]]; lia).
      nia.
    + assert (q1' <= q2')%Z by (destruct Hq1' as [[-> ?]|[-> ?]];
                                destruct Hq2' as [[-> ?]|[-> ?]]; lia).
      nia.
  - assert (Hp : (2 * 2 ^ (L1 - 52) <= 2 ^ (L2 - 52))%Z).
    { replace (L2 - 52)%Z with ((L2 - L1 - 1) + (1 + (L1 - 52)))%Z by lia.
      rewrite Z.pow_add_r, (Z.pow_add_r 2 1) by lia. change (2 ^ 1)%Z with 2%Z.
      assert (0 < 2 ^ (L2 - L1 - 1))%Z by (apply Z.pow_pos_nonneg; lia).
      assert (0 < 2 ^ (L1 - 52))%Z by (apply Z.pow_pos_nonneg; lia).
      nia. }
    assert (0 < 2 ^ (L1 - 52))%Z by (apply Z.pow_pos_nonneg; lia).
    assert (Hq1u : (q1' <= 2 ^ 53)%Z) by (destruct Hq1' as [[-> ?]|[-> ?]]; lia).
    assert (Hq2l : (2 ^ 52 <= q2')%Z) by (destruct Hq2' as [[-> ?]|[-> ?]]; lia).
    change (2 ^ 53)%Z with (2 * 2 ^ 52)%Z in Hq1u.
    nia.
Qed.

(** The conversion is monotone. *)
Lemma round_to_double_mono (z1 z2 : Z) :
  (z1 <= z2)%Z -> (round_to_double z1 <= round_to_double z2)%Z.
Proof.
  intros Hle.
  destruct (Z_lt_le_dec z1 0) as [Hn1|Hp1]; destruct (Z_lt_le_dec z2 0) as [Hn2|Hp2].
  - pose proof (round_to_double_nonneg_mono (- z2) (- z1) ltac:(lia)) as M.
    rewrite !round_to_double_opp in M. lia.
  - pose proof (round_to_double_nonneg_mono 0 (- z1) ltac:(lia)) as M1.
    pose proof (round_to_double_nonneg_mono 0 z2 ltac:(lia)) as M2.
    rewrite round_to_double_opp in M1.
    change (round_to_double 0) with 0%Z in M1, M2. lia.
  - lia.
  - apply round_to_double_nonneg_mono. lia.
Qed.

(** ** DiscardBefore *)

Lemma discard_loop_suffix time l :
  exists dropped, l = dropped ++ discard_loop time l
    /\ Forall (fun m => as_double (timestamp m) < time) dropped.
Proof.
  induction l as [|m rest IH]; simpl.
  - exists []; split; [reflexivity | constructor].
  - destruct (Qltb (as_double (timestamp m)) time) eqn:E.
    + destruct IH as [dropped [Hl Hd]].
      exists (m :: dropped); split.
      * simpl. f_equal. exact Hl.
      * constructor; [apply Qltb_true; exact E | exact Hd].
    + exists []; split; [reflexivity | constructor].
Qed.

Lemma discard_loop_front time l :
  match discard_loop time l with
  | [] => True
  | m :: _ => time <= as_double (timestamp m)
  end.
Proof.
  induction l as [|m rest IH]; simpl; [exact I|].
  destruct (Qltb (as_double (timestamp m)) time) eqn:E; [exact IH|].
  apply Qltb_false; exact E.
Qed.

(** ** The two loops of Preintegrate *)

Section PreintegrationProperties.

Context `{Timestamps}.

(** The anchor loop meets an empty queue exactly when every remaining
    sample is at or before [from]. *)
Lemma anchor_loop_None from imu l :
  anchor_loop from imu l = None
  <-> Forall (fun m => seconds_of m <= from) l.
Proof.
  revert imu; induction l as [|m rest IH]; intros imu; simpl.
  - split; [constructor | reflexivity].
  - destruct (Qle_bool (seconds_of m) from) eqn:E.
    + rewrite IH. split; intros F.
      * constructor; [apply Qle_bool_iff; exact E | exact F].
      * inversion F; assumption.
    + split; [discriminate|]. intros F. inversion F as [|? ? Hm _]; subst.
      apply Qle_bool_iff in Hm. congruence.
Qed.

(** When the anchor loop ends, the queue held the samples it skipped, then
    the anchor, then what remains; a sample later than [from] is in front
    of what remains, and every sample popped by the loop is at or before
    [from]. *)
Lemma anchor_loop_Some from imu l anchor l' :
  anchor_loop from imu l = Some (anchor, l') ->
  exists skipped,
    imu :: l = skipped ++ anchor :: l'
    /\ (exists m rest, l' = m :: rest /\ from < seconds_of m)
    /\ Forall (fun m => seconds_of m <= from) (tl (skipped ++ [anchor])).
Proof.
  revert imu; induction l as [|m rest IH]; intros imu; simpl; [discriminate|].
  destruct (Qle_bool (seconds_of m) from) eqn:E.
  - intros L. destruct (IH _ L) as [skipped [Hl [Hfront Hle]]].
    exists (imu :: skipped). split; [|split].
    + simpl. f_equal. exact Hl.
    + exact Hfront.
    + simpl. destruct skipped as [|x skipped]; simpl in *.
      * injection Hl as -> _. constructor; [|constructor].
        apply Qle_bool_iff; exact E.
      * injection Hl as -> _. constructor; [|exact Hle].
        apply Qle_bool_iff; exact E.
  - intros L. injection L as <- <-. exists []. split; [|split].
    + reflexivity.
    + exists m, rest; split; [reflexivity|].
      apply Qnot_le_lt. intros C. apply Qle_bool_iff in C. congruence.
    + constructor.
Qed.

Lemma last_cons {A} (l : list A) (x d : A) : last (x :: l) d = last l x.
Proof.
  revert x d; induction l as [|y l IH]; intros x d; [reflexivity|].
  change (last (x :: y :: l) d) with (last (y :: l) d).
  rewrite (IH y d), (IH y x). reflexivity.
Qed.

Lemma last_In_cons {A} (l : list A) (x : A) : In (last l x) (x :: l).
Proof.
  revert x; induction l as [|y l IH]; intros x.
  - left; reflexivity.
  - right. rewrite last_cons. apply IH.
Qed.

(** The integration loop pops a window of samples below [to], stops at a
    sample at or after [to] or at the end of the queue, leaves the sample
    popped last in [imu] and keeps the seed of the accumulator. *)
Lemma integrate_loop_spec to imu last_sec pm l l2 imu' pm' :
  integrate_loop to imu last_sec pm l = (l2, imu', pm') ->
  exists window,
    l = window ++ l2
    /\ Forall (fun m => seconds_of m < to) window
    /\ match l2 with [] => True | m :: _ => to <= seconds_of m end
    /\ imu' = last window imu
    /\ resetIntegration pm' = resetIntegration pm.
Proof.
  revert imu last_sec pm; induction l as [|m rest IH];
    intros imu last_sec pm; simpl.
  - intros E; injection E as <- <- <-. exists [].
    repeat split; constructor.
  - destruct (Qltb (seconds_of m) to) eqn:E.
    + intros L. apply IH in L.
      destruct L as [window [Hl [Hw [Hfront [Hlast Hreset]]]]].
      exists (m :: window). split; [|split; [|split; [|split]]].
      * simpl. f_equal. exact Hl.
      * constructor; [apply Qltb_true; exact E | exact Hw].
      * exact Hfront.
      * rewrite Hlast. symmetry. apply last_cons.
      * rewrite Hreset.
        destruct (Qltb 0 (seconds_of m - last_sec)); reflexivity.
    + intros L; injection L as <- <- <-. exists [].
      repeat split; try constructor.
      apply Qltb_false; exact E.
Qed.

(** ** The two halves of Preintegrate *)

Lemma Preintegrate_start_spec from s :
  match Preintegrate_start from s with
  | Exit (Returned (site, r) s') =>
      r = failure /\ pim_ s' = pim_ s /\ params_ s' = params_ s
      /\ ((site = NoMeasurements /\ buffer s = [] /\ s' = s)
          \/ (site = FromMisaligned
              /\ exists skipped anchor,
                   buffer s = skipped ++ anchor :: buffer s'
                   /\ allowed_misalignment_sec (params_ s)
                      < offset_from_sec from (seconds_of anchor)))
  | Exit PeekFrontOnEmpty =>
      exists m rest,
        buffer s = m :: rest /\ Forall (fun x => seconds_of x <= from) rest
  | Continue imu s1 =>
      params_ s1 = params_ s
      /\ (exists skipped, buffer s = skipped ++ imu :: buffer s1)
      /\ front_after from (buffer s1)
      /\ offset_from_sec from (seconds_of imu)
         <= allowed_misalignment_sec (params_ s)
      /\ pim_ s1
         = integrate_offset imu (offset_from_sec from (seconds_of imu))
             (pim_ s)
  end.
Proof.
  unfold Preintegrate_start, ThreadsafeQueue.Empty, ThreadsafeQueue.Pop, buffer.
  destruct (ThreadsafeQueue.items (queue_ s)) as [|m0 rest] eqn:Eq.
  - repeat split. left. repeat split.
  - simpl. destruct (anchor_loop from m0 rest) as [[imu l1]|] eqn:L.
    + apply anchor_loop_Some in L.
      destruct L as [skipped [Hl [Hfront _]]].
      destruct (Qltb (allowed_misalignment_sec (params_ s))
                  (offset_from_sec from (seconds_of imu))) eqn:E.
      * repeat split. right. split; [reflexivity|].
        exists skipped, imu. split; [exact Hl | apply Qltb_true; exact E].
      * simpl. split; [reflexivity|]. split; [exists skipped; exact Hl|].
        split; [exact Hfront|]. split; [apply Qltb_false; exact E|].
        reflexivity.
    + exists m0, rest. split; [reflexivity|].
      apply (anchor_loop_None from m0 rest); exact L.
Qed.

Lemma Preintegrate_finish_spec to imu s site r s' :
  Preintegrate_finish to imu s = (site, r, s') ->
  exists window,
    buffer s = window ++ buffer s'
    /\ Forall (fun m => seconds_of m < to) window
    /\ front_not_below to (buffer s')
    /\ params_ s' = params_ s
    /\ pim_ s' = resetIntegration (pim_ s)
    /\ ((site = ToMisaligned /\ r = failure
         /\ allowed_misalignment_sec (params_ s)
            < offset_to_sec to (seconds_of (last window imu)))
        \/ (site = Integrated /\ valid r = true
            /\ from_time r = seconds_of imu
            /\ to_time r = seconds_of (last window imu)
            /\ offset_to_sec to (seconds_of (last window imu))
               <= allowed_misalignment_sec (params_ s))).
Proof.
  unfold Preintegrate_finish.
  destruct (integrate_loop to imu (seconds_of imu) (pim_ s) (buffer s))
    as [[l2 imu'] pm] eqn:L.
  apply integrate_loop_spec in L.
  destruct L as [window [Hl [Hw [Hfront [Hlast Hreset]]]]].
  simpl.
  destruct (Qltb (allowed_misalignment_sec (params_ s))
              (offset_to_sec to (seconds_of imu'))) eqn:E;
    intros R; injection R as <- <- <-; exists window; simpl;
    (split; [exact Hl|]); (split; [exact Hw|]); (split; [exact Hfront|]);
    (split; [reflexivity|]).
  - split; [exact Hreset|]. left. split; [reflexivity|].
    split; [reflexivity|]. rewrite <- Hlast. apply Qltb_true; exact E.
  - split.
    + rewrite <- Hreset. unfold integrate_offset.
      destruct (Qltb 0 (offset_to_sec to (seconds_of imu'))); reflexivity.
    + right. split; [reflexivity|]. split; [reflexivity|].
      split; [reflexivity|]. split; [rewrite Hlast; reflexivity|].
      rewrite <- Hlast. apply Qltb_false; exact E.
Qed.

Lemma resetIntegration_integrate_offset imu offset pm :
  resetIntegration (integrate_offset imu offset pm) = resetIntegration pm.
Proof. unfold integrate_offset. destruct (Qltb 0 offset); reflexivity. Qed.

(** ** Preintegrate, by return statement *)

Lemma Preintegrate_at_spec from to s :
  match Preintegrate_at from to s with
  | PeekFrontOnEmpty =>
      exists m rest,
        buffer s = m :: rest /\ Forall (fun x => seconds_of x <= from) rest
  | Returned (site, r) s' =>
      params_ s' = params_ s
      /\ match site with
         | NoMeasurements => r = failure /\ buffer s = [] /\ s' = s
         | FromMisaligned =>
             r = failure /\ pim_ s' = pim_ s
             /\ exists skipped anchor,
                  buffer s = skipped ++ anchor :: buffer s'
                  /\ allowed_misalignment_sec (params_ s)
                     < offset_from_sec from (seconds_of anchor)
         | ToMisaligned =>
             r = failure /\ pim_ s' = resetIntegration (pim_ s)
             /\ exists skipped anchor window,
                  buffer s = skipped ++ anchor :: window ++ buffer s'
                  /\ Forall (fun m => seconds_of m < to) window
                  /\ front_not_below to (buffer s')
                  /\ allowed_misalignment_sec (params_ s)
                     < offset_to_sec to (seconds_of (last window anchor))
         | Integrated =>
             valid r = true /\ pim_ s' = resetIntegration (pim_ s)
             /\ exists skipped anchor window,
                  buffer s = skipped ++ anchor :: window ++ buffer s'
                  /\ Forall (fun m => seconds_of m < to) window
                  /\ front_not_below to (buffer s')
                  /\ from_time r = seconds_of anchor
                  /\ to_time r = seconds_of (last window anchor)
                  /\ offset_from_sec from (seconds_of anchor)
                     <= allowed_misalignment_sec (params_ s)
                  /\ offset_to_sec to (seconds_of (last window anchor))
                     <= allowed_misalignment_sec (params_ s)
         end
  end.
Proof.
  unfold Preintegrate_at.
  pose proof (Preintegrate_start_spec from s) as S.
  destruct (Preintegrate_start from s) as [[[site r] s'|]|imu s1].
  - destruct S as [Hr [Hpim [Hprm [[-> [Hb ->]]|[-> Hx]]]]].
    + repeat split; assumption.
    + repeat split; assumption.
  - exact S.
  - destruct S as [Hprm [[skipped Hb] [_ [Hfrom Hpim]]]].
    destruct (Preintegrate_finish to imu s1) as [[site r] s'] eqn:F.
    apply Preintegrate_finish_spec in F.
    destruct F as [window [Hw [Hlt [Hfront [Hprm' [Hpim' Hsite]]]]]].
    rewrite Hpim, resetIntegration_integrate_offset in Hpim'.
    rewrite Hw in Hb. rewrite Hprm in *.
    split; [exact Hprm'|].
    destruct Hsite as [[-> [-> Hoff]]|[-> [Hv [Hf [Ht Hto]]]]].
    + split; [reflexivity|]. split; [exact Hpim'|].
      exists skipped, imu, window. repeat split; assumption.
    + split; [exact Hv|]. split; [exact Hpim'|].
      exists skipped, imu, window. repeat split; assumption.
Qed.

Lemma Preintegrate_Returned from to s r s' :
  Preintegrate from to s = Returned r s' <->
  exists site, Preintegrate_at from to s = Returned (site, r) s'.
Proof.
  unfold Preintegrate.
  destruct (Preintegrate_at from to s) as [[site r0] s0|]; split.
  - intros E; injection E as <- <-. exists site; reflexivity.
  - intros [site' E]; injection E as _ <- <-. reflexivity.
  - discriminate.
  - intros [site' E]; discriminate.
Qed.

Lemma Preintegrate_PeekFrontOnEmpty from to s :
  Preintegrate from to s = PeekFrontOnEmpty <->
  Preintegrate_at from to s = PeekFrontOnEmpty.
Proof.
  unfold Preintegrate.
  destruct (Preintegrate_at from to s) as [[site r0] s0|]; split;
    try discriminate; reflexivity.
Qed.

Lemma Preintegrate_at_accumulator from to s site r s' :
  Preintegrate_at from to s = Returned (site, r) s' ->
  match site with
  | NoMeasurements | FromMisaligned => pim_ s' = pim_ s
  | ToMisaligned | Integrated => pim_ s' = resetIntegration (pim_ s)
  end.
Proof.
  intros E. pose proof (Preintegrate_at_spec from to s) as S.
  rewrite E in S. destruct S as [_ S].
  destruct site.
  - destruct S as [_ [_ ->]]; reflexivity.
  - destruct S as [_ [S _]]; exact S.
  - destruct S as [_ [S _]]; exact S.
  - destruct S as [_ [S _]]; exact S.
Qed.

(** The accumulator by [return] statement, for any state on entry: a call
    that returns leaves the accumulator at identity/zero whenever it was at
    identity on entry; the returns after an end misalignment and after a
    success reset it whatever it held, the returns on an empty buffer and on
    a start misalignment leave it as it was on entry. *)
Lemma Preintegrate_accumulator from to s site r s' :
  Preintegrate_at from to s = Returned (site, r) s' ->
  (at_identity (pim_ s) -> at_identity (pim_ s'))
  /\ match site with
     | NoMeasurements | FromMisaligned => pim_ s' = pim_ s
     | ToMisaligned | Integrated =>
         pim_ s' = resetIntegration (pim_ s) /\ at_identity (pim_ s')
     end.
Proof.
  intros E. apply Preintegrate_at_accumulator in E.
  destruct site; rewrite E; split; auto; intros; try split;
    try reflexivity; apply resetIntegration_at_identity.
Qed.

(** The accumulator is at identity/zero in every reachable state. *)
Lemma reachable_at_identity s : reachable s -> at_identity (pim_ s).
Proof.
  induction 1 as [prm|imu s _ IH|from to s r s' _ IH E|bias s _ _|time s _ IH].
  - reflexivity.
  - exact IH.
  - apply Preintegrate_Returned in E. destruct E as [site E].
    apply Preintegrate_at_accumulator in E.
    destruct site; rewrite E; try exact IH;
      apply resetIntegration_at_identity.
  - reflexivity.
  - exact IH.
Qed.

(** C1: for every call of [Preintegrate] on a manager, whichever [return]
    statement it leaves by (empty buffer, start misalignment, end
    misalignment or success), the accumulator is at identity/zero when the
    call returns; the accumulator on entry is the one a manager can hold,
    that of a reachable state. *)
Theorem Preintegrate_returns_at_identity from to s site r s' :
  reachable s ->
  Preintegrate_at from to s = Returned (site, r) s' ->
  at_identity (pim_ s')
  /\ Preintegrate from to s = Returned r s'
  /\ reachable s'.
Proof.
  intros Hr E.
  assert (E' : Preintegrate from to s = Returned r s').
  { apply Preintegrate_Returned. exists site. exact E. }
  split; [|split; [exact E'|]].
  - pose proof (reachable_at_identity s Hr) as Hid.
    apply Preintegrate_at_accumulator in E.
    destruct site; rewrite E; try exact Hid;
      apply resetIntegration_at_identity.
  - exact (reach_Preintegrate from to s r s' Hr E').
Qed.

Lemma Preintegrate_at_empty from to s :
  buffer s = [] ->
  Preintegrate_at from to s = Returned (NoMeasurements, failure) s.
Proof.
  intros E. unfold Preintegrate_at, Preintegrate_start, ThreadsafeQueue.Empty.
  unfold buffer in E. rewrite E. reflexivity.
Qed.

(** C5: on an empty buffer, whatever the arguments, [Preintegrate] returns
    an invalid result that claims no time range: its two times are the
    sentinels and its increments are the default ones, with nothing
    integrated. *)
Theorem Preintegrate_empty_buffer from to s :
  buffer s = [] ->
  exists r,
    Preintegrate from to s = Returned r s
    /\ valid r = false
    /\ from_time r = kMinSeconds /\ to_time r = kMaxSeconds
    /\ pim r = PimC_default.
Proof.
  intros E. exists failure. unfold Preintegrate.
  rewrite (Preintegrate_at_empty from to s E). repeat split.
Qed.

(** C10: a call that returns at the end misalignment returns an invalid
    result, and the buffer has lost the samples skipped by the anchor
    search, the anchor and the whole window of samples below [to_time]
    that followed it: what remains is a strictly shorter suffix. *)
Theorem Preintegrate_end_misalignment_consumes from to s r s' :
  Preintegrate_at from to s = Returned (ToMisaligned, r) s' ->
  valid r = false
  /\ (exists skipped anchor window,
        buffer s = skipped ++ anchor :: window ++ buffer s'
        /\ Forall (fun m => seconds_of m < to) window
        /\ front_not_below to (buffer s'))
  /\ (length (buffer s') < length (buffer s))%nat.
Proof.
  intros E. pose proof (Preintegrate_at_spec from to s) as S.
  rewrite E in S.
  destruct S as [_ [-> [_ [skipped [anchor [window [Hb [Hw [Hf _]]]]]]]]].
  split; [reflexivity|]. split.
  - exists skipped, anchor, window. repeat split; assumption.
  - rewrite Hb. rewrite length_app. simpl. rewrite length_app. lia.
Qed.

Lemma front_not_below_all_below to l :
  front_not_below to l -> Forall (fun m => seconds_of m < to) l -> l = [].
Proof.
  destruct l as [|m rest]; [reflexivity|]. simpl. intros Hge Hall.
  inversion Hall as [|? ? Hlt _]; subst.
  exfalso. apply (Qlt_not_le _ _ Hlt). exact Hge.
Qed.

(** C6 (amended): when the first call succeeds on a buffer whose samples
    are all below [to_time], it drains the buffer and a second call with
    the same arguments and no push in between returns an invalid result. *)
Theorem Preintegrate_twice_drained from to s r s' :
  Preintegrate from to s = Returned r s' ->
  valid r = true ->
  Forall (fun m => seconds_of m < to) (buffer s) ->
  buffer s' = []
  /\ exists r', Preintegrate from to s' = Returned r' s' /\ valid r' = false.
Proof.
  intros E Hv Hall. apply Preintegrate_Returned in E. destruct E as [site E].
  pose proof (Preintegrate_at_spec from to s) as S. rewrite E in S.
  destruct S as [_ S].
  assert (Hempty : buffer s' = []).
  { destruct site.
    - destruct S as [-> _]. discriminate Hv.
    - destruct S as [-> _]. discriminate Hv.
    - destruct S as [-> _]. discriminate Hv.
    - destruct S as [_ [_ [skipped [anchor [window [Hb [_ [Hf _]]]]]]]].
      apply (front_not_below_all_below to); [exact Hf|].
      rewrite Hb in Hall.
      apply Forall_app in Hall. destruct Hall as [_ Hall].
      inversion Hall as [|? ? _ Hall']; subst.
      apply Forall_app in Hall'. apply Hall'. }
  split; [exact Hempty|].
  exists failure. unfold Preintegrate.
  rewrite (Preintegrate_at_empty from to s' Hempty). split; reflexivity.
Qed.

Lemma Qabs_pos_iff (x : Q) : 0 < Qabs x <-> ~ x == 0.
Proof.
  split.
  - intros Hp E. rewrite E in Hp. apply (Qlt_irrefl 0). exact Hp.
  - intros Hn. destruct (Qlt_le_dec 0 (Qabs x)) as [Hp|Hle]; [exact Hp|].
    exfalso. apply Hn. apply Qabs_Qle_condition in Hle.
    destruct Hle as [H1 H2]. apply Qle_antisym; [exact H2|].
    rewrite <- Qopp_opp at 1. exact H1.
Qed.

Lemma Qminus_eq_0 (x y : Q) : x - y == 0 <-> x == y.
Proof. split; intros E; lra. Qed.

(** Lines 56-66 as written: in a call that gets past the start misalignment
    check, the step at the start of the window is performed exactly when
    [from_time] is not the sentinel and the anchor's time differs from
    [from_time], on either side; otherwise the accumulator is untouched. *)
Lemma Preintegrate_start_step_iff from s imu s1 :
  Preintegrate_start from s = Continue imu s1 ->
  (start_step_performed from imu s s1
   <-> ~ from == kMinSeconds /\ ~ seconds_of imu == from)
  /\ (~ start_step_performed from imu s s1 -> pim_ s1 = pim_ s)
  /\ (~ from == kMinSeconds ->
      Qabs (seconds_of imu - from) <= allowed_misalignment_sec (params_ s)).
Proof.
  intros E. pose proof (Preintegrate_start_spec from s) as S.
  rewrite E in S. destruct S as [_ [_ [_ [Htol Hpim]]]].
  unfold start_step_performed. rewrite Hpim.
  unfold integrate_offset, offset_from_sec in *.
  assert (Hgap : 0 < Qabs (seconds_of imu - from)
                 <-> ~ seconds_of imu == from).
  { rewrite Qabs_pos_iff, Qminus_eq_0. reflexivity. }
  assert (Hnil : forall (l : list Integration) x, l = l ++ [x] -> False).
  { intros l x C. apply (f_equal (@length _)) in C.
    rewrite length_app in C. simpl in C. lia. }
  destruct (Qneb from kMinSeconds) eqn:Es.
  - apply Qneb_true in Es.
    destruct (Qltb 0 (Qabs (seconds_of imu - from))) eqn:Ep.
    + apply Qltb_true in Ep. split; [|split].
      * split; [intros _; split; [exact Es | apply Hgap; exact Ep]|].
        intros _. reflexivity.
      * intros C. exfalso. apply C. reflexivity.
      * intros _. exact Htol.
    + apply Qltb_false in Ep. split; [|split].
      * split; [intros C; exfalso; exact (Hnil _ _ C)|].
        intros [_ C]. apply Hgap in C. exfalso.
        apply (Qlt_not_le _ _ C). exact Ep.
      * reflexivity.
      * intros _. exact Htol.
  - apply Qneb_false in Es. change (Qltb 0 0) with false. cbv iota.
    split; [|split].
    + split; [intros C; exfalso; exact (Hnil _ _ C)|].
      intros [C _]. exfalso. exact (C Es).
    + reflexivity.
    + intros C. exfalso. exact (C Es).
Qed.

(** C4 (amended): in a call that gets past the start misalignment check with
    the anchor at or after [from_time], the synthetic step at the start of
    the window (the anchor's readings over the gap between [from_time] and
    the anchor) is performed if and only if [from_time] is not the sentinel
    and the anchor is strictly after [from_time]; otherwise the accumulator
    is untouched.  For a concrete [from_time] the gap is within the
    tolerance. *)
Theorem Preintegrate_start_step from s imu s1 :
  Preintegrate_start from s = Continue imu s1 ->
  from <= seconds_of imu ->
  (start_step_performed from imu s s1
   <-> ~ from == kMinSeconds /\ from < seconds_of imu)
  /\ (~ start_step_performed from imu s s1 -> pim_ s1 = pim_ s)
  /\ (~ from == kMinSeconds ->
      seconds_of imu - from <= allowed_misalignment_sec (params_ s)).
Proof.
  intros E Hle.
  destruct (Preintegrate_start_step_iff from s imu s1 E) as [Hiff [Hnot Htol]].
  assert (Hne : ~ seconds_of imu == from <-> from < seconds_of imu).
  { split.
    - intros Hn. apply Qle_lt_or_eq in Hle. destruct Hle as [Hlt|Heq].
      + exact Hlt.
      + exfalso. apply Hn. symmetry. exact Heq.
    - intros Hlt Heq. rewrite Heq in Hlt. apply (Qlt_irrefl from). exact Hlt. }
  split; [|split].
  - rewrite Hiff, Hne. reflexivity.
  - exact Hnot.
  - intros Hs. apply Qle_trans with (Qabs (seconds_of imu - from)).
    + apply Qle_Qabs.
    + apply Htol. exact Hs.
Qed.

(** [Preintegrate] peeks an empty queue exactly when the buffer is not
    empty and every sample after the first is at or before [from]. *)
Lemma Preintegrate_peeks_empty_queue_iff from to s :
  Preintegrate from to s = PeekFrontOnEmpty
  <-> exists m rest,
        buffer s = m :: rest /\ Forall (fun x => seconds_of x <= from) rest.
Proof.
  rewrite Preintegrate_PeekFrontOnEmpty. split.
  - intros E. pose proof (Preintegrate_at_spec from to s) as S.
    rewrite E in S. exact S.
  - intros [m [rest [Hb Hall]]].
    unfold Preintegrate_at, Preintegrate_start, ThreadsafeQueue.Empty,
      ThreadsafeQueue.Pop.
    unfold buffer in Hb. rewrite Hb. simpl.
    apply (anchor_loop_None from m rest) in Hall. rewrite Hall. reflexivity.
Qed.

(** When no sample of the buffer is within the tolerance of a concrete
    boundary, a call that returns from a state with the accumulator at
    identity returns an invalid result and leaves the accumulator at
    identity. *)
Lemma Preintegrate_misaligned_returns_invalid from to s r s' :
  Preintegrate from to s = Returned r s' ->
  at_identity (pim_ s) ->
  (~ from == kMinSeconds /\ none_within_tolerance from s)
  \/ (~ to == kMaxSeconds /\ none_within_tolerance to s) ->
  valid r = false /\ at_identity (pim_ s').
Proof.
  intros E Hid Hmis. apply Preintegrate_Returned in E. destruct E as [site E].
  pose proof (Preintegrate_at_accumulator from to s site r s' E) as Hacc.
  pose proof (Preintegrate_at_spec from to s) as S. rewrite E in S.
  destruct S as [_ S].
  destruct site.
  - destruct S as [-> _]. rewrite Hacc. split; [reflexivity | exact Hid].
  - destruct S as [-> _]. rewrite Hacc. split; [reflexivity | exact Hid].
  - destruct S as [-> _]. rewrite Hacc.
    split; [reflexivity | apply resetIntegration_at_identity].
  - exfalso.
    destruct S as [_ [_ [skipped [anchor [window
      [Hb [_ [_ [_ [_ [Hfrom Hto]]]]]]]]]]].
    unfold none_within_tolerance in Hmis. rewrite Hb in Hmis.
    destruct Hmis as [[Hs Hnone]|[Hs Hnone]];
      apply Forall_app in Hnone; destruct Hnone as [_ Hnone].
    + inversion Hnone as [|? ? Ha _]; subst.
      unfold offset_from_sec in Hfrom.
      apply Qneb_true in Hs. rewrite Hs in Hfrom.
      apply (Qlt_not_le _ _ Ha). exact Hfrom.
    + assert (Hin : In (last window anchor) (anchor :: window ++ buffer s')).
      { pose proof (last_In_cons window anchor) as Hin.
        destruct Hin as [Hin|Hin]; [left; exact Hin|].
        right. apply in_or_app. left. exact Hin. }
      rewrite Forall_forall in Hnone. specialize (Hnone _ Hin).
      unfold offset_to_sec in Hto.
      apply Qneb_true in Hs. rewrite Hs in Hto.
      apply (Qlt_not_le _ _ Hnone). exact Hto.
Qed.

Lemma reachable_manager_with tolerance secs :
  reachable (manager_with tolerance secs).
Proof.
  unfold manager_with.
  generalize (ImuManager_new (test_params tolerance))
             (reach_new (test_params tolerance)).
  induction secs as [|t secs IH]; intros s Hs; simpl.
  - exact Hs.
  - apply IH. apply reach_Push. exact Hs.
Qed.

(** C9: on a buffer that holds a single sample, whatever the arguments,
    [Preintegrate] pops that sample and then calls [PeekFront] on the
    empty queue in the anchor loop. *)
Theorem Preintegrate_single_sample_peeks_empty_queue from to :
  Preintegrate from to (manager_with 1 [1%Z]) = PeekFrontOnEmpty.
Proof.
  apply Preintegrate_peeks_empty_queue_iff.
  exists (sample_at 1), []. split; [reflexivity | constructor].
Qed.

End PreintegrationProperties.

(** ** The manager on concrete inputs *)

(** The early returns do not reset the accumulator themselves: in a state
    no manager can reach, with an empty buffer and an accumulator that holds
    an integrated measurement, [Preintegrate] returns at line 44 with that
    accumulator untouched. *)
Lemma Preintegrate_keeps_stale_accumulator :
  ~ (forall (T : Timestamps) from to s r s',
        Preintegrate from to s = Returned r s' -> at_identity (pim_ s')).
Proof.
  intros C.
  assert (E : Preintegrate 0 1 manager_with_stale_accumulator
              = Returned failure manager_with_stale_accumulator)
    by reflexivity.
  apply C in E. discriminate E.
Qed.

Lemma Preintegrate_accumulator_witness :
  match Preintegrate_at 1 (7 # 2) (manager_with 1 [1; 2; 3]%Z) with
  | Returned (site, _) s' =>
      site = Integrated
      /\ (at_identity (pim_ (manager_with 1 [1; 2; 3]%Z)) ->
          at_identity (pim_ s'))
  | PeekFrontOnEmpty => False
  end.
Proof.
  destruct (Preintegrate_at 1 (7 # 2) (manager_with 1 [1; 2; 3]%Z))
    as [[site r] s'|] eqn:E.
  - split.
    + vm_compute in E. congruence.
    + apply (Preintegrate_accumulator _ _ _ _ _ _ E).
  - vm_compute in E. discriminate E.
Defined.

Lemma Preintegrate_returns_at_identity_witness :
  reachable (manager_with 1 [10; 20]%Z)
  /\ match Preintegrate_at 5 30 (manager_with 1 [10; 20]%Z) with
     | Returned (site, r) s' =>
         site = FromMisaligned /\ valid r = false /\ at_identity (pim_ s')
     | PeekFrontOnEmpty => False
     end.
Proof.
  pose proof (reachable_manager_with 1 [10; 20]%Z) as Hr.
  split; [exact Hr|].
  destruct (Preintegrate_at 5 30 (manager_with 1 [10; 20]%Z))
    as [[site r] s'|] eqn:E.
  - destruct (Preintegrate_returns_at_identity _ _ _ _ _ _ Hr E) as [Hid _].
    vm_compute in E. injection E as <- <- _.
    split; [reflexivity|]. split; [reflexivity | exact Hid].
  - vm_compute in E. discriminate E.
Defined.

Lemma Preintegrate_empty_buffer_witness :
  buffer (manager_with 1 []) = []
  /\ exists r,
       Preintegrate 1 2 (manager_with 1 []) = Returned r (manager_with 1 [])
       /\ valid r = false
       /\ from_time r = kMinSeconds /\ to_time r = kMaxSeconds
       /\ pim r = PimC_default.
Proof.
  split; [reflexivity|].
  apply (Preintegrate_empty_buffer 1 2 (manager_with 1 [])). reflexivity.
Defined.

Lemma Preintegrate_end_misalignment_consumes_witness :
  match Preintegrate_at 1 5 (manager_with (1 # 2) [1; 2; 3; 10]%Z) with
  | Returned (site, r) s' =>
      site = ToMisaligned /\ valid r = false
      /\ (length (buffer s')
          < length (buffer (manager_with (1 # 2) [1; 2; 3; 10]%Z)))%nat
  | PeekFrontOnEmpty => False
  end.
Proof.
  destruct (Preintegrate_at 1 5 (manager_with (1 # 2) [1; 2; 3; 10]%Z))
    as [[site r] s'|] eqn:E.
  - assert (Hsite : site = ToMisaligned) by (vm_compute in E; congruence).
    split; [exact Hsite|]. subst site.
    destruct (Preintegrate_end_misalignment_consumes _ _ _ _ _ E)
      as [Hv [_ Hlen]].
    split; [exact Hv | exact Hlen].
  - vm_compute in E. discriminate E.
Defined.

(** C6, as stated, fails: with samples at 1, 2, 3 and 4 s and a tolerance of
    1 s, the window from 2 s to 2.5 s succeeds, leaves the samples at 3 s
    and 4 s in the buffer, and succeeds again on them. *)
Lemma Preintegrate_twice_succeeds :
  ~ (forall (T : Timestamps) from to s r s' r' s'',
        Preintegrate from to s = Returned r s' -> valid r = true ->
        Preintegrate from to s' = Returned r' s'' -> valid r' = false).
Proof.
  intros C.
  destruct (Preintegrate 2 (5 # 2) (manager_with 1 [1; 2; 3; 4]%Z))
    as [r s'|] eqn:E1; [|vm_compute in E1; discriminate E1].
  destruct (Preintegrate 2 (5 # 2) s') as [r' s''|] eqn:E2.
  - pose proof (C nanoseconds _ _ _ r s' r' s'' E1) as C'.
    vm_compute in E1. injection E1 as <- <-.
    specialize (C' eq_refl E2).
    vm_compute in E2. injection E2 as <- <-. discriminate C'.
  - vm_compute in E1. injection E1 as <- <-.
    vm_compute in E2. discriminate E2.
Qed.

Lemma Preintegrate_twice_drained_witness :
  match Preintegrate 1 (7 # 2) (manager_with 1 [1; 2; 3]%Z) with
  | Returned r s' =>
      valid r = true /\ buffer s' = []
      /\ exists r', Preintegrate 1 (7 # 2) s' = Returned r' s'
                    /\ valid r' = false
  | PeekFrontOnEmpty => False
  end.
Proof.
  destruct (Preintegrate 1 (7 # 2) (manager_with 1 [1; 2; 3]%Z))
    as [r s'|] eqn:E.
  - assert (Hv : valid r = true)
      by (vm_compute in E; injection E as <- <-; reflexivity).
    split; [exact Hv|].
    apply (Preintegrate_twice_drained _ _ _ _ _ E Hv).
    repeat constructor.
  - vm_compute in E. discriminate E.
Defined.

(** C4, as stated, fails: with samples at 1 s and 3 s, a window that starts
    at the sentinel [kMinSeconds] is anchored at the sample at 1 s, strictly
    after [from_time], and no synthetic step is performed. *)
Lemma Preintegrate_start_step_sentinel :
  ~ (forall (T : Timestamps) from s imu s1,
        Preintegrate_start from s = Continue imu s1 ->
        (start_step_performed from imu s s1 <-> from < seconds_of imu)).
Proof.
  intros C.
  destruct (Preintegrate_start kMinSeconds (manager_with 1 [1; 3]%Z))
    as [o|imu s1] eqn:E; [vm_compute in E; discriminate E|].
  specialize (C nanoseconds _ _ _ _ E).
  vm_compute in E. injection E as <- <-.
  destruct C as [_ C].
  assert (P : start_step_performed kMinSeconds (sample_at 1)
                (manager_with 1 [1; 3]%Z)
                (set_buffer (manager_with 1 [1; 3]%Z) [sample_at 3]))
    by (apply C; reflexivity).
  vm_compute in P. discriminate P.
Qed.

Lemma Preintegrate_start_step_witness :
  match Preintegrate_start (5 # 2) (manager_with 1 [3; 4]%Z) with
  | Continue imu s1 =>
      5 # 2 <= seconds_of imu
      /\ (start_step_performed (5 # 2) imu (manager_with 1 [3; 4]%Z) s1
          <-> ~ 5 # 2 == kMinSeconds /\ 5 # 2 < seconds_of imu)
  | Exit _ => False
  end.
Proof.
  destruct (Preintegrate_start (5 # 2) (manager_with 1 [3; 4]%Z))
    as [o|imu s1] eqn:E.
  - vm_compute in E. discriminate E.
  - assert (Hle : 5 # 2 <= seconds_of imu).
    { vm_compute in E. injection E as <- _. vm_compute. discriminate. }
    split; [exact Hle|].
    apply (Preintegrate_start_step _ _ _ _ E Hle).
Defined.

(** C3: pushed a single sample at 10 s, a manager with a tolerance of 1 s is
    asked for the window from 5 s to 20 s.  The start boundary is concrete
    and no sample is within the tolerance of it, yet the call returns no
    result: the anchor loop calls [PeekFront] on the empty queue. *)
Theorem Preintegrate_misaligned_single_sample :
  reachable (manager_with 1 [10%Z])
  /\ ~ 5 == kMinSeconds
  /\ none_within_tolerance 5 (manager_with 1 [10%Z])
  /\ Preintegrate 5 20 (manager_with 1 [10%Z]) = PeekFrontOnEmpty.
Proof.
  split; [apply reachable_manager_with|].
  split; [intros C; vm_compute in C; discriminate C|].
  split; [repeat constructor|].
  reflexivity.
Qed.

(** C2: pushed samples at 1 s, 2 s and 3 s, in nanosecond ticks, a manager
    is asked to [DiscardBefore(2.5)].  Line 106 compares the raw tick count
    with the time in seconds, without the [ConvertToSeconds] of lines 49
    and 70, so nothing is removed and the front sample, at 1 s, is still in
    the buffer although its time is below 2.5 s. *)
Theorem DiscardBefore_compares_ticks_with_seconds :
  reachable (manager_with 1 [1; 2; 3]%Z)
  /\ DiscardBefore (5 # 2) (manager_with 1 [1; 2; 3]%Z)
     = manager_with 1 [1; 2; 3]%Z
  /\ exists m rest,
       buffer (DiscardBefore (5 # 2) (manager_with 1 [1; 2; 3]%Z)) = m :: rest
       /\ seconds_of m < 5 # 2.
Proof.
  split; [apply reachable_manager_with|].
  split; [reflexivity|].
  exists (sample_at 1), [sample_at 2; sample_at 3].
  split; reflexivity.
Qed.

(** Read in ticks, the comparison of line 106 still rounds: the tick counts
    1600000000000000200 and 1600000000000000300 both convert to the double
    1600000000000000256, so [DiscardBefore(1600000000000000256)] removes
    nothing and leaves in front a sample whose tick count is below it. *)
Lemma DiscardBefore_rounds_ticks :
  DiscardBefore 1600000000000000256
    (manager_with_ticks 1 [1600000000000000200; 1600000000000000300]%Z)
  = manager_with_ticks 1 [1600000000000000200; 1600000000000000300]%Z
  /\ exists m rest,
       buffer (manager_with_ticks 1
                 [1600000000000000200; 1600000000000000300]%Z) = m :: rest
       /\ inject_Z (timestamp m) < 1600000000000000256.
Proof.
  split; [reflexivity|].
  eexists. eexists. split; reflexivity.
Qed.

(** ** Levenberg-Marquardt *)

Section LevenbergMarquardtProperties.

Variables Pose Increment : Type.
Variable total_error : Pose -> Q.
Variable solve_damped : Q -> Pose -> Increment.
Variable compose : Increment -> Pose -> Pose.
Variables increase_damping decrease_damping : Q -> Q.
Variable accept_equal : bool.

Hypothesis increase_damping_grows :
  forall l, 0 < l -> l < increase_damping l.
Hypothesis decrease_damping_positive :
  forall l, 0 < l -> 0 < decrease_damping l.

Local Abbreviation iteration :=
  (vo.lm_iteration Pose Increment total_error solve_damped compose
     increase_damping decrease_damping accept_equal).
Local Abbreviation iterations :=
  (vo.lm_iterations Pose Increment total_error solve_damped compose
     increase_damping decrease_damping accept_equal).
Local Abbreviation step_ok :=
  (vo.lm_step_ok Pose Increment total_error solve_damped compose
     increase_damping decrease_damping).
Local Abbreviation consistent :=
  (vo.lm_consistent Pose total_error).
Local Abbreviation not_above := (vo.lm_not_above Pose).

Lemma reduces_error_le e_new e_old :
  vo.reduces_error accept_equal e_new e_old = true -> e_new <= e_old.
Proof.
  unfold vo.reduces_error. destruct accept_equal.
  - apply Qle_bool_iff.
  - intros E. apply Qltb_true in E. apply Qlt_le_weak. exact E.
Qed.

Lemma reduces_error_not e_new e_old :
  vo.reduces_error accept_equal e_new e_old = false -> e_old <= e_new.
Proof.
  unfold vo.reduces_error. destruct accept_equal.
  - intros E. apply Qlt_le_weak. apply Qnot_le_lt. intros C.
    apply Qle_bool_iff in C. congruence.
  - apply Qltb_false.
Qed.

Lemma lm_iteration_ok st :
  0 < vo.lambda st -> consistent st ->
  step_ok st (snd (iteration st))
  /\ 0 < vo.lambda (snd (iteration st))
  /\ consistent (snd (iteration st)).
Proof.
  intros Hl Hc. unfold vo.lm_iteration, vo.lm_step_ok, vo.lm_consistent.
  destruct (vo.reduces_error accept_equal _ (vo.error st)) eqn:E; simpl.
  - split; [|split].
    + left. repeat split. apply reduces_error_le. exact E.
    + apply decrease_damping_positive. exact Hl.
    + reflexivity.
  - split; [|split].
    + right. repeat split.
      * apply increase_damping_grows. exact Hl.
      * apply reduces_error_not. exact E.
    + apply Qlt_trans with (vo.lambda st); [exact Hl|].
      apply increase_damping_grows. exact Hl.
    + exact Hc.
Qed.

Lemma step_ok_not_above st st' : step_ok st st' -> not_above st st'.
Proof.
  unfold vo.lm_not_above.
  intros [[_ [_ [Hle _]]]|[_ [He _]]]; [exact Hle|].
  rewrite He. apply Qle_refl.
Qed.

(** C7: along a run of the optimizer started with positive damping, every
    iteration either composes the proposed step onto the pose, and then the
    total error has not increased, or leaves the pose and the error as they
    were and retries with a strictly larger damping, and then the proposed
    step did not reduce the error; so the sequence of errors never
    increases, and each is the total error of the pose it comes with. *)
Theorem lm_never_increases_error max_iters min_error min_error_delta st :
  0 < vo.lambda st ->
  vo.error st = total_error (vo.T_01 st) ->
  vo.chain Pose step_ok st (iterations max_iters min_error min_error_delta st)
  /\ StronglySorted not_above
       (st :: iterations max_iters min_error min_error_delta st)
  /\ Forall consistent (iterations max_iters min_error min_error_delta st).
Proof.
  revert st. induction max_iters as [|n IH]; intros st Hl Hc.
  - simpl. repeat split; repeat constructor.
  - pose proof (lm_iteration_ok st Hl Hc) as [Hok [Hl' Hc']].
    pose proof (step_ok_not_above _ _ Hok) as Hna.
    simpl. destruct (iteration st) as [accepted st'] eqn:E.
    simpl in Hok, Hl', Hc', Hna.
    destruct (accepted && _).
    + split; [|split].
      * simpl. split; [exact Hok | exact I].
      * repeat constructor. exact Hna.
      * repeat constructor. exact Hc'.
    + destruct (IH st' Hl' Hc') as [Hchain [Hsorted Hcons]].
      split; [|split].
      * simpl. split; [exact Hok | exact Hchain].
      * constructor; [exact Hsorted|].
        constructor; [exact Hna|].
        inversion Hsorted as [|? ? _ Hall]; subst.
        revert Hall. apply Forall_impl. intros x Hx.
        unfold vo.lm_not_above in *. apply Qle_trans with (vo.error st').
        -- exact Hx.
        -- exact Hna.
      * constructor; [exact Hc' | exact Hcons].
Qed.

End LevenbergMarquardtProperties.

Lemma toy_increase_grows (l : Q) : 0 < l -> l < vo.toy_increase l.
Proof. unfold vo.toy_increase. intros Hl. lra. Qed.

Lemma toy_decrease_positive (l : Q) : 0 < l -> 0 < vo.toy_decrease l.
Proof. unfold vo.toy_decrease. intros Hl. lra. Qed.

Lemma lm_never_increases_error_witness :
  (forall l, 0 < l -> l < vo.toy_increase l)
  /\ (forall l, 0 < l -> 0 < vo.toy_decrease l)
  /\ 0 < 1 # 4
  /\ 1 = vo.toy_error 1
  /\ vo.chain Q
       (vo.lm_step_ok Q Q vo.toy_error vo.toy_solve vo.toy_compose
          vo.toy_increase vo.toy_decrease)
       (vo.mkLMState Q 1 1 (1 # 4))
       (vo.lm_iterations Q Q vo.toy_error vo.toy_solve vo.toy_compose
          vo.toy_increase vo.toy_decrease false 6 (1 # 100) (1 # 1000)
          (vo.mkLMState Q 1 1 (1 # 4)))
  /\ StronglySorted (vo.lm_not_above Q)
       (vo.mkLMState Q 1 1 (1 # 4)
        :: vo.lm_iterations Q Q vo.toy_error vo.toy_solve vo.toy_compose
             vo.toy_increase vo.toy_decrease false 6 (1 # 100) (1 # 1000)
             (vo.mkLMState Q 1 1 (1 # 4))).
Proof.
  split; [exact toy_increase_grows|].
  split; [exact toy_decrease_positive|].
  split; [reflexivity|].
  split; [reflexivity|].
  destruct (lm_never_increases_error Q Q vo.toy_error vo.toy_solve
              vo.toy_compose vo.toy_increase vo.toy_decrease false
              toy_increase_grows toy_decrease_positive
              6%nat (1 # 100) (1 # 1000) (vo.mkLMState Q 1 1 (1 # 4))
              eq_refl eq_refl) as [Hchain [Hsorted _]].
  split; [exact Hchain | exact Hsorted].
Defined.

(** * Further properties of the manager *)

(** ** DiscardBefore *)

Lemma set_buffer_set_buffer s l l' :
  set_buffer (set_buffer s l) l' = set_buffer s l'.
Proof. reflexivity. Qed.

Lemma discard_loop_later t1 t2 l :
  t1 <= t2 -> discard_loop t2 (discard_loop t1 l) = discard_loop t2 l.
Proof.
  intros Hle. induction l as [|m rest IH]; [reflexivity|].
  simpl. destruct (Qltb (as_double (timestamp m)) t1) eqn:E1.
  - assert (E2 : Qltb (as_double (timestamp m)) t2 = true).
    { apply Qltb_true. apply Qltb_true in E1.
      apply Qlt_le_trans with t1; assumption. }
    rewrite E2. exact IH.
  - reflexivity.
Qed.

Lemma discard_loop_earlier t1 t2 l :
  t1 <= t2 -> discard_loop t1 (discard_loop t2 l) = discard_loop t2 l.
Proof.
  intros Hle. pose proof (discard_loop_front t2 l) as F.
  destruct (discard_loop t2 l) as [|m rest]; [reflexivity|].
  simpl. replace (Qltb (as_double (timestamp m)) t1) with false; [reflexivity|].
  symmetry. apply Qltb_false. apply Qle_trans with t2; assumption.
Qed.

(** X1: [DiscardBefore] removes a prefix of the buffer, every sample of
    which has a timestamp below [time], both as the comparison of line 106
    sees it, converted to [double], and, [time] being a [double], as the
    exact tick count; it touches neither the parameters nor the
    accumulator. *)
Theorem DiscardBefore_prefix (time : seconds_t) (s : ImuManager) :
  (exists dropped,
      buffer s = dropped ++ buffer (DiscardBefore time s)
      /\ Forall (fun m => as_double (timestamp m) < time) dropped
      /\ (on_double_grid time ->
          Forall (fun m => inject_Z (timestamp m) < time) dropped))
  /\ params_ (DiscardBefore time s) = params_ s
  /\ pim_params_ (DiscardBefore time s) = pim_params_ s
  /\ pim_ (DiscardBefore time s) = pim_ s.
Proof.
  split; [|repeat split].
  destruct (discard_loop_suffix time (buffer s)) as [dropped [Hb Hd]].
  exists dropped. split; [exact Hb|]. split; [exact Hd|].
  intros Hgrid. revert Hd. apply Forall_impl. intros m Hm.
  apply round_to_double_below; assumption.
Qed.

(** X2: two calls of [DiscardBefore] amount to the one with the later time,
    in whichever order they are made; in particular a repeated call changes
    nothing. *)
Theorem DiscardBefore_twice (t1 t2 : seconds_t) (s : ImuManager) :
  t1 <= t2 ->
  DiscardBefore t2 (DiscardBefore t1 s) = DiscardBefore t2 s
  /\ DiscardBefore t1 (DiscardBefore t2 s) = DiscardBefore t2 s.
Proof.
  intros Hle. unfold DiscardBefore.
  split; rewrite set_buffer_set_buffer; f_equal.
  - apply discard_loop_later. exact Hle.
  - apply discard_loop_earlier. exact Hle.
Qed.

Lemma DiscardBefore_twice_witness :
  1 <= 3
  /\ DiscardBefore 3 (DiscardBefore 1 (manager_with 1 [0; 2; 5]%Z))
     = DiscardBefore 3 (manager_with 1 [0; 2; 5]%Z)
  /\ DiscardBefore 1 (DiscardBefore 3 (manager_with 1 [0; 2; 5]%Z))
     = DiscardBefore 3 (manager_with 1 [0; 2; 5]%Z).
Proof.
  assert (Hle : 1 <= 3) by (vm_compute; discriminate).
  split; [exact Hle|].
  apply (DiscardBefore_twice 1 3 (manager_with 1 [0; 2; 5]%Z) Hle).
Defined.

Lemma discard_loop_ordered time l :
  timestamp_ordered l -> discard_loop time l = filter (not_before time) l.
Proof.
  induction l as [|m rest IH]; intros Hs; [reflexivity|].
  apply StronglySorted_inv in Hs. destruct Hs as [Hs Hall].
  simpl. unfold not_before at 1.
  destruct (Qltb (as_double (timestamp m)) time) eqn:E; simpl.
  - apply IH. exact Hs.
  - f_equal. symmetry. apply forallb_filter_id.
    apply forallb_forall. intros x Hx.
    rewrite Forall_forall in Hall. specialize (Hall x Hx).
    unfold not_before. apply negb_true_iff. apply Qltb_false.
    apply Qltb_false in E. apply Qle_trans with (as_double (timestamp m)).
    + exact E.
    + unfold as_double. rewrite <- Zle_Qle.
      apply round_to_double_mono. exact Hall.
Qed.

(** X3: on a buffer in non-decreasing order of timestamp, [DiscardBefore]
    keeps exactly the samples whose timestamp, converted to [double] as the
    comparison of line 106 converts it, is not below [time], in their
    order.  Above 2^53 a sample it keeps can have an exact tick count below
    [time]. *)
Theorem DiscardBefore_ordered (time : seconds_t) (s : ImuManager) :
  timestamp_ordered (buffer s) ->
  buffer (DiscardBefore time s) = filter (not_before time) (buffer s)
  /\ Forall (fun m => time <= as_double (timestamp m))
       (buffer (DiscardBefore time s)).
Proof.
  intros Hs.
  assert (E : buffer (DiscardBefore time s)
              = filter (not_before time) (buffer s))
    by (apply discard_loop_ordered; exact Hs).
  split; [exact E|]. rewrite E. apply Forall_forall. intros x Hx.
  apply filter_In in Hx. destruct Hx as [_ Hx].
  unfold not_before in Hx. apply negb_true_iff in Hx.
  apply Qltb_false. exact Hx.
Qed.

Lemma DiscardBefore_ordered_witness :
  timestamp_ordered
    (buffer (manager_with_ticks 1
               [1600000000000000200; 1600000000000000300]%Z))
  /\ buffer (DiscardBefore 1600000000000000256
               (manager_with_ticks 1
                  [1600000000000000200; 1600000000000000300]%Z))
     = buffer (manager_with_ticks 1
                 [1600000000000000200; 1600000000000000300]%Z).
Proof.
  assert (Hs : timestamp_ordered
                 (buffer (manager_with_ticks 1
                            [1600000000000000200; 1600000000000000300]%Z))).
  { repeat constructor; discriminate. }
  split; [exact Hs|].
  destruct (DiscardBefore_ordered 1600000000000000256 _ Hs) as [E _].
  rewrite E. reflexivity.
Defined.

(** X19: after [DiscardBefore(time)] the buffer is empty or the timestamp
    of its front sample, converted to [double] as the comparison of line
    106 converts it, is not below [time]. *)
Theorem DiscardBefore_front_converted (time : seconds_t) (s : ImuManager) :
  buffer (DiscardBefore time s) = []
  \/ exists m rest,
       buffer (DiscardBefore time s) = m :: rest
       /\ time <= as_double (timestamp m).
Proof.
  unfold DiscardBefore, set_buffer, set_queue, buffer; simpl.
  pose proof (discard_loop_front time (ThreadsafeQueue.items (queue_ s))) as F.
  destruct (discard_loop time (ThreadsafeQueue.items (queue_ s)))
    as [|m rest].
  - left; reflexivity.
  - right; exists m, rest; split; [reflexivity | exact F].
Qed.

(** ** Preintegrate: when it returns and what it leaves alone *)

Section PreintegrationFurther.

Context `{Timestamps}.

Lemma Forall_or_Exists_later from (l : list ImuMeasurement) :
  Forall (fun x => seconds_of x <= from) l
  \/ Exists (fun x => from < seconds_of x) l.
Proof.
  induction l as [|m rest IH]; [left; constructor|].
  destruct (Qlt_le_dec from (seconds_of m)) as [Hlt|Hle].
  - right. constructor. exact Hlt.
  - destruct IH as [IH|IH].
    + left. constructor; assumption.
    + right. apply Exists_cons_tl. exact IH.
Qed.

Lemma Forall_Exists_later_absurd from (l : list ImuMeasurement) :
  Forall (fun x => seconds_of x <= from) l ->
  Exists (fun x => from < seconds_of x) l -> False.
Proof.
  intros Hall Hex. apply Exists_exists in Hex. destruct Hex as [x [Hin Hlt]].
  rewrite Forall_forall in Hall. specialize (Hall x Hin).
  apply (Qlt_not_le _ _ Hlt). exact Hall.
Qed.

(** X4: [Preintegrate] returns a result exactly when the buffer is empty or
    holds, after its first sample, a sample later than [from_time];
    otherwise it calls [PeekFront] on an empty queue. *)
Theorem Preintegrate_returns_iff from to s :
  (exists r s', Preintegrate from to s = Returned r s')
  <-> buffer s = []
      \/ exists m rest,
           buffer s = m :: rest
           /\ Exists (fun x => from < seconds_of x) rest.
Proof.
  split.
  - intros [r [s' E]].
    destruct (buffer s) as [|m rest] eqn:Hb; [left; reflexivity|].
    right. exists m, rest. split; [reflexivity|].
    destruct (Forall_or_Exists_later from rest) as [Hall|Hex]; [|exact Hex].
    exfalso.
    assert (P : Preintegrate from to s = PeekFrontOnEmpty).
    { apply Preintegrate_peeks_empty_queue_iff. exists m, rest.
      split; assumption. }
    rewrite P in E. discriminate E.
  - intros Hb. destruct (Preintegrate from to s) as [r s'|] eqn:E.
    + exists r, s'. reflexivity.
    + exfalso. apply Preintegrate_peeks_empty_queue_iff in E.
      destruct E as [m [rest [Hm Hall]]].
      destruct Hb as [Hb|[m' [rest' [Hb Hex]]]]; rewrite Hb in Hm.
      * discriminate Hm.
      * injection Hm as -> ->.
        exact (Forall_Exists_later_absurd from rest Hall Hex).
Qed.

Lemma integrate_loop_frame to imu last_sec pm1 pm2 l :
  fst (integrate_loop to imu last_sec pm1 l)
  = fst (integrate_loop to imu last_sec pm2 l).
Proof.
  revert imu last_sec pm1 pm2.
  induction l as [|m rest IH]; intros imu last_sec pm1 pm2; [reflexivity|].
  simpl. destruct (Qltb (seconds_of m) to); [|reflexivity]. apply IH.
Qed.

(** The state a returning call leaves is the entry state with another
    buffer and another accumulator. *)
Lemma Preintegrate_at_state from to s x s' :
  Preintegrate_at from to s = Returned x s' ->
  s' = set_pim (set_buffer s (buffer s')) (pim_ s').
Proof.
  unfold Preintegrate_at, Preintegrate_start, Preintegrate_finish,
    ThreadsafeQueue.Empty, ThreadsafeQueue.Pop, buffer.
  destruct s as [prm [mx drop items] pp pm]. simpl.
  destruct items as [|m0 rest]; simpl.
  - intros E; injection E as _ <-. reflexivity.
  - destruct (anchor_loop from m0 rest) as [[imu l1]|]; [|discriminate].
    destruct (Qltb (allowed_misalignment_sec prm)
                (offset_from_sec from (seconds_of imu))).
    + intros E; injection E as _ <-. reflexivity.
    + simpl.
      destruct (integrate_loop to imu (seconds_of imu)
                  (integrate_offset imu
                     (offset_from_sec from (seconds_of imu)) pm) l1)
        as [[l2 imu'] pm'].
      simpl.
      destruct (Qltb (allowed_misalignment_sec prm)
                  (offset_to_sec to (seconds_of imu')));
        intros E; injection E as _ <-; reflexivity.
Qed.

Lemma resetIntegration_seed pm pm' :
  resetIntegration pm' = resetIntegration pm ->
  p pm' = p pm /\ biasHat pm' = biasHat pm.
Proof.
  intros E. split.
  - exact (f_equal p E).
  - exact (f_equal biasHat E).
Qed.

(** X5: a call of [Preintegrate] that returns only removes samples from
    the front of the buffer: the parameters, the capacity of the queue, the
    noise parameters and the bias of the accumulator are as on entry, and
    the buffer on entry is the removed samples followed by the buffer on
    return. *)
Theorem Preintegrate_frame from to s r s' :
  Preintegrate from to s = Returned r s' ->
  s' = set_pim (set_buffer s (buffer s')) (pim_ s')
  /\ (exists removed, buffer s = removed ++ buffer s')
  /\ p (pim_ s') = p (pim_ s)
  /\ biasHat (pim_ s') = biasHat (pim_ s).
Proof.
  intros E. apply Preintegrate_Returned in E. destruct E as [site E].
  split; [exact (Preintegrate_at_state _ _ _ _ _ E)|].
  pose proof (Preintegrate_at_accumulator _ _ _ _ _ _ E) as Hacc.
  pose proof (Preintegrate_at_spec from to s) as S. rewrite E in S.
  destruct S as [_ S]. split.
  - destruct site.
    + destruct S as [_ [_ ->]]. exists []. reflexivity.
    + destruct S as [_ [_ [skipped [anchor [Hb _]]]]].
      exists (skipped ++ [anchor]). rewrite <- app_assoc. exact Hb.
    + destruct S as [_ [_ [skipped [anchor [window [Hb _]]]]]].
      exists (skipped ++ anchor :: window).
      rewrite <- app_assoc. exact Hb.
    + destruct S as [_ [_ [skipped [anchor [window [Hb _]]]]]].
      exists (skipped ++ anchor :: window).
      rewrite <- app_assoc. exact Hb.
  - destruct site; rewrite Hacc; split; reflexivity.
Qed.

End PreintegrationFurther.

Lemma Preintegrate_frame_witness :
  match Preintegrate 1 5 (manager_with (1 # 2) [1; 2; 3; 10]%Z) with
  | Returned r s' =>
      exists removed,
        buffer (manager_with (1 # 2) [1; 2; 3; 10]%Z) = removed ++ buffer s'
  | PeekFrontOnEmpty => False
  end.
Proof.
  destruct (Preintegrate 1 5 (manager_with (1 # 2) [1; 2; 3; 10]%Z))
    as [r s'|] eqn:E.
  - apply (Preintegrate_frame _ _ _ _ _ E).
  - vm_compute in E. discriminate E.
Defined.

(** ** Preintegrate: the valid result *)

Section PreintegrationResult.

Context `{Timestamps}.

(** How a call that returns at line 94 got there. *)
Lemma Preintegrate_at_Integrated from to s r s' :
  Preintegrate_at from to s = Returned (Integrated, r) s' ->
  exists imu s1 l2 imu' pm,
    Preintegrate_start from s = Continue imu s1
    /\ integrate_loop to imu (seconds_of imu) (pim_ s1) (buffer s1)
       = (l2, imu', pm)
    /\ r = mkPimResult true (seconds_of imu) (seconds_of imu')
             (integrate_offset imu' (offset_to_sec to (seconds_of imu')) pm).
Proof.
  unfold Preintegrate_at.
  pose proof (Preintegrate_start_spec from s) as S.
  destruct (Preintegrate_start from s) as [[[site0 r0] s0|]|imu s1].
  - intros E; injection E as -> _ _.
    destruct S as [_ [_ [_ [[C _]|[C _]]]]]; discriminate C.
  - discriminate.
  - unfold Preintegrate_finish.
    destruct (integrate_loop to imu (seconds_of imu) (pim_ s1) (buffer s1))
      as [[l2 imu'] pm] eqn:L.
    simpl.
    destruct (Qltb (allowed_misalignment_sec (params_ s1))
                (offset_to_sec to (seconds_of imu'))).
    + intros E; discriminate E.
    + intros E; injection E as <- _.
      exists imu, s1, l2, imu', pm. repeat split. exact L.
Qed.

Lemma Preintegrate_valid_Integrated from to s r s' :
  Preintegrate from to s = Returned r s' -> valid r = true ->
  Preintegrate_at from to s = Returned (Integrated, r) s'.
Proof.
  intros E Hv. apply Preintegrate_Returned in E. destruct E as [site E].
  pose proof (Preintegrate_at_spec from to s) as S. rewrite E in S.
  destruct S as [_ S].
  destruct site; try exact E; destruct S as [-> _]; discriminate Hv.
Qed.

(** X6: the time range of a valid result is made of the times of two
    buffered samples, and each is within the allowed misalignment of the
    requested bound when that bound is not the sentinel. *)
Theorem Preintegrate_valid_range from to s r s' :
  Preintegrate from to s = Returned r s' ->
  valid r = true ->
  (exists earliest latest,
      In earliest (buffer s) /\ In latest (buffer s)
      /\ from_time r = seconds_of earliest
      /\ to_time r = seconds_of latest)
  /\ (~ from == kMinSeconds ->
      Qabs (from_time r - from) <= allowed_misalignment_sec (params_ s))
  /\ (~ to == kMaxSeconds ->
      Qabs (to_time r - to) <= allowed_misalignment_sec (params_ s)).
Proof.
  intros E Hv. apply (Preintegrate_valid_Integrated _ _ _ _ _ E) in Hv.
  pose proof (Preintegrate_at_spec from to s) as S. rewrite Hv in S.
  destruct S as [_ [_ [_ [skipped [anchor [window
    [Hb [_ [_ [Hf [Ht [Hfrom Hto]]]]]]]]]]]].
  split; [|split].
  - exists anchor, (last window anchor). rewrite Hb.
    split; [apply in_or_app; right; left; reflexivity|].
    split; [|split; assumption].
    apply in_or_app. right.
    destruct (last_In_cons window anchor) as [Hin|Hin].
    + left. exact Hin.
    + right. apply in_or_app. left. exact Hin.
  - intros Hs. rewrite Hf. unfold offset_from_sec in Hfrom.
    apply Qneb_true in Hs. rewrite Hs in Hfrom. exact Hfrom.
  - intros Hs. rewrite Ht. unfold offset_to_sec in Hto.
    apply Qneb_true in Hs. rewrite Hs in Hto. exact Hto.
Qed.

Lemma integrate_offset_positive imu offset pm :
  positive_durations pm -> positive_durations (integrate_offset imu offset pm).
Proof.
  unfold integrate_offset, positive_durations. intros Hp.
  destruct (Qltb 0 offset) eqn:E; [|exact Hp].
  simpl. apply Forall_app. split; [exact Hp|].
  constructor; [|constructor]. apply Qltb_true. exact E.
Qed.

Lemma integrate_loop_positive to imu last_sec pm l l2 imu' pm' :
  integrate_loop to imu last_sec pm l = (l2, imu', pm') ->
  positive_durations pm -> positive_durations pm'.
Proof.
  revert imu last_sec pm. induction l as [|m rest IH]; intros imu last_sec pm.
  - simpl. intros E; injection E as _ _ <-. exact (fun Hp => Hp).
  - simpl. destruct (Qltb (seconds_of m) to).
    + intros L Hp. apply (IH _ _ _ L).
      destruct (Qltb 0 (seconds_of m - last_sec)) eqn:E; [|exact Hp].
      unfold positive_durations. simpl. apply Forall_app.
      split; [exact Hp|]. constructor; [|constructor].
      apply Qltb_true. exact E.
    + intros E; injection E as _ _ <-. exact (fun Hp => Hp).
Qed.

(** X7: entered with the accumulator at identity, [Preintegrate] never
    hands out a zero or negative duration: every measurement integrated in
    the result it returns was integrated over a strictly positive time. *)
Theorem Preintegrate_positive_durations from to s r s' :
  Preintegrate from to s = Returned r s' ->
  at_identity (pim_ s) ->
  positive_durations (pim r).
Proof.
  intros E Hid. destruct (valid r) eqn:Hv.
  - apply (Preintegrate_valid_Integrated _ _ _ _ _ E) in Hv.
    apply Preintegrate_at_Integrated in Hv.
    destruct Hv as [imu [s1 [l2 [imu' [pm [Hstart [L ->]]]]]]].
    pose proof (Preintegrate_start_spec from s) as S. rewrite Hstart in S.
    destruct S as [_ [_ [_ [_ Hpim]]]].
    simpl. apply integrate_offset_positive.
    apply (integrate_loop_positive _ _ _ _ _ _ _ _ L).
    rewrite Hpim. apply integrate_offset_positive.
    unfold positive_durations. rewrite Hid. constructor.
  - apply Preintegrate_Returned in E. destruct E as [site E].
    pose proof (Preintegrate_at_spec from to s) as S. rewrite E in S.
    destruct S as [_ S].
    destruct site; destruct S as [S _];
      try (rewrite S; constructor).
    rewrite S in Hv. discriminate Hv.
Qed.




Lemma offset_from_sec_nonneg from t : 0 <= offset_from_sec from t.
Proof.
  unfold offset_from_sec. destruct (Qneb from kMinSeconds).
  - apply Qabs_nonneg.
  - apply Qle_refl.
Qed.




Lemma StronglySorted_app_r {A} (R : A -> A -> Prop) (l1 l2 : list A) :
  StronglySorted R (l1 ++ l2) -> StronglySorted R l2.
Proof.
  induction l1 as [|x l1 IH]; simpl; [exact (fun Hs => Hs)|].
  intros Hs. apply StronglySorted_inv in Hs. apply IH. apply Hs.
Qed.

Lemma StronglySorted_app_cross {A} (R : A -> A -> Prop) (l1 l2 : list A) x y :
  StronglySorted R (l1 ++ l2) -> In x l1 -> In y l2 -> R x y.
Proof.
  induction l1 as [|z l1 IH]; simpl; [contradiction|].
  intros Hs Hx Hy. apply StronglySorted_inv in Hs. destruct Hs as [Hs Hall].
  destruct Hx as [->|Hx].
  - rewrite Forall_forall in Hall. apply Hall. apply in_or_app. right. exact Hy.
  - apply IH; assumption.
Qed.



(** ** Preintegrate on a buffer in time order *)

Lemma time_ordered_front to l :
  time_ordered l -> front_not_below to l ->
  Forall (fun m => to <= seconds_of m) l.
Proof.
  destruct l as [|m rest]; [constructor|].
  intros Hs Hfront. apply StronglySorted_inv in Hs. destruct Hs as [_ Hall].
  simpl in Hfront. constructor; [exact Hfront|].
  revert Hall. apply Forall_impl. intros x Hx.
  apply Qle_trans with (seconds_of m); assumption.
Qed.

Lemma time_ordered_last anchor window :
  time_ordered (anchor :: window) ->
  seconds_of anchor <= seconds_of (last window anchor).
Proof.
  intros Hs. apply StronglySorted_inv in Hs. destruct Hs as [_ Hall].
  destruct (last_In_cons window anchor) as [Hin|Hin].
  - rewrite <- Hin. apply Qle_refl.
  - rewrite Forall_forall in Hall. apply Hall. exact Hin.
Qed.

Lemma StronglySorted_app_l {A} (R : A -> A -> Prop) (l1 l2 : list A) :
  StronglySorted R (l1 ++ l2) -> StronglySorted R l1.
Proof.
  induction l1 as [|x l1 IH]; simpl; [constructor|].
  intros Hs. apply StronglySorted_inv in Hs. destruct Hs as [Hs Hall].
  constructor; [apply IH; exact Hs|].
  apply Forall_app in Hall. apply Hall.
Qed.

(** What a valid result tells about a buffer in time order. *)
Lemma Preintegrate_valid_ordered from to s r s' :
  Preintegrate from to s = Returned r s' ->
  valid r = true ->
  time_ordered (buffer s) ->
  from_time r <= to_time r
  /\ time_ordered (buffer s')
  /\ Forall (fun m => to <= seconds_of m) (buffer s')
  /\ Forall (fun m => to_time r <= seconds_of m) (buffer s').
Proof.
  intros E Hv Hs. apply (Preintegrate_valid_Integrated _ _ _ _ _ E) in Hv.
  pose proof (Preintegrate_at_spec from to s) as S. rewrite Hv in S.
  destruct S as [_ [_ [_ [skipped [anchor [window
    [Hb [_ [Hfront [Hf [Ht _]]]]]]]]]]].
  rewrite Hb in Hs.
  pose proof (StronglySorted_app_r _ _ _ Hs) as Hs1.
  change (anchor :: window ++ buffer s')
    with ((anchor :: window) ++ buffer s') in Hs1.
  pose proof (StronglySorted_app_r _ _ _ Hs1) as Hs2.
  split; [|split; [|split]].
  - rewrite Hf, Ht. apply time_ordered_last.
    exact (StronglySorted_app_l _ _ _ Hs1).
  - exact Hs2.
  - apply time_ordered_front; assumption.
  - apply Forall_forall. intros x Hx. rewrite Ht.
    apply (StronglySorted_app_cross _ _ _ _ _ Hs1); [|exact Hx].
    apply last_In_cons.
Qed.

Lemma last_app_cons {A} (l1 l2 : list A) (x d : A) :
  last (l1 ++ x :: l2) d = last l2 x.
Proof.
  revert d. induction l1 as [|y l1 IH]; intros d.
  - apply last_cons.
  - change ((y :: l1) ++ x :: l2) with (y :: l1 ++ x :: l2).
    rewrite last_cons. apply IH.
Qed.

Lemma time_ordered_below_last l d :
  time_ordered l ->
  Forall (fun m => seconds_of m <= seconds_of (last l d)) l.
Proof.
  revert d. induction l as [|x l IH]; intros d Hs; [constructor|].
  apply StronglySorted_inv in Hs. destruct Hs as [Hs Hall].
  rewrite last_cons. constructor.
  - destruct (last_In_cons l x) as [Hin|Hin].
    + rewrite <- Hin. apply Qle_refl.
    + rewrite Forall_forall in Hall. apply Hall. exact Hin.
  - apply IH. exact Hs.
Qed.

(** X9: on a buffer in non-decreasing order of time, a valid result covers
    a range that does not run backwards; the samples the call removed are
    all at or before the end of that range, and the buffer it leaves is
    still in order and holds no sample below [to_time] nor below the end
    of the range. *)
Theorem Preintegrate_consumes_window from to s r s' :
  Preintegrate from to s = Returned r s' ->
  valid r = true ->
  time_ordered (buffer s) ->
  from_time r <= to_time r
  /\ (exists removed,
        buffer s = removed ++ buffer s'
        /\ Forall (fun m => seconds_of m <= to_time r) removed)
  /\ time_ordered (buffer s')
  /\ Forall (fun m => to <= seconds_of m) (buffer s')
  /\ Forall (fun m => to_time r <= seconds_of m) (buffer s').
Proof.
  intros E Hv Hs.
  destruct (Preintegrate_valid_ordered _ _ _ _ _ E Hv Hs)
    as [Hrange [Hs' [Hto Hlast]]].
  split; [exact Hrange|]. split; [|split; [|split]]; try assumption.
  apply (Preintegrate_valid_Integrated _ _ _ _ _ E) in Hv.
  pose proof (Preintegrate_at_spec from to s) as S. rewrite Hv in S.
  destruct S as [_ [_ [_ [skipped [anchor [window [Hb [_ [_ [_ [Ht _]]]]]]]]]]].
  exists (skipped ++ anchor :: window). split.
  - rewrite <- app_assoc. exact Hb.
  - rewrite Ht, <- (last_app_cons skipped window anchor anchor).
    apply time_ordered_below_last.
    rewrite Hb in Hs.
    replace (skipped ++ anchor :: window ++ buffer s')
      with ((skipped ++ anchor :: window) ++ buffer s') in Hs
      by (rewrite <- app_assoc; reflexivity).
    exact (StronglySorted_app_l _ _ _ Hs).
Qed.

(** X10: on a buffer in non-decreasing order of time, the valid results of
    two successive calls, whatever their arguments, cover ranges in order:
    the second range starts at or after the end of the first and at or
    after the [to_time] asked of the first call. *)
Theorem Preintegrate_successive_ranges from1 to1 from2 to2 s r1 s1 r2 s2 :
  Preintegrate from1 to1 s = Returned r1 s1 ->
  valid r1 = true ->
  time_ordered (buffer s) ->
  Preintegrate from2 to2 s1 = Returned r2 s2 ->
  valid r2 = true ->
  to_time r1 <= from_time r2
  /\ to1 <= from_time r2
  /\ from_time r2 <= to_time r2.
Proof.
  intros E1 Hv1 Hs E2 Hv2.
  destruct (Preintegrate_valid_ordered _ _ _ _ _ E1 Hv1 Hs)
    as [_ [Hs1 [Hto Hlast]]].
  destruct (Preintegrate_valid_ordered _ _ _ _ _ E2 Hv2 Hs1) as [Hrange _].
  apply (Preintegrate_valid_Integrated _ _ _ _ _ E2) in Hv2.
  pose proof (Preintegrate_at_spec from2 to2 s1) as S. rewrite Hv2 in S.
  destruct S as [_ [_ [_ [skipped [anchor [window [Hb [_ [_ [Hf _]]]]]]]]]].
  assert (Hin : In anchor (buffer s1)).
  { rewrite Hb. apply in_or_app. right. left. reflexivity. }
  rewrite Forall_forall in Hto, Hlast.
  rewrite Hf. split; [|split].
  - apply Hlast. exact Hin.
  - apply Hto. exact Hin.
  - rewrite <- Hf. exact Hrange.
Qed.

(** ** Preintegrate and the bias *)

Lemma Preintegrate_at_result_seed from to s r s' :
  Preintegrate_at from to s = Returned (Integrated, r) s' ->
  resetIntegration (pim r) = resetIntegration (pim_ s).
Proof.
  intros E. apply Preintegrate_at_Integrated in E.
  destruct E as [imu [s1 [l2 [imu' [pm [Hstart [L ->]]]]]]].
  pose proof (Preintegrate_start_spec from s) as S. rewrite Hstart in S.
  destruct S as [_ [_ [_ [_ Hpim]]]].
  apply integrate_loop_spec in L.
  destruct L as [window [_ [_ [_ [_ Hreset]]]]].
  simpl. rewrite resetIntegration_integrate_offset, Hreset, Hpim.
  apply resetIntegration_integrate_offset.
Qed.

(** X11: after [ResetAndUpdateBias(bias)], a call of [Preintegrate] that
    returns leaves the accumulator at identity with that bias; a valid
    result carries that bias and the noise parameters of the manager, an
    invalid one carries the default increments, with no bias. *)
Theorem Preintegrate_after_ResetAndUpdateBias bias from to s r s' :
  Preintegrate from to (ResetAndUpdateBias bias s) = Returned r s' ->
  at_identity (pim_ s')
  /\ biasHat (pim_ s') = bias
  /\ (valid r = true -> biasHat (pim r) = bias /\ p (pim r) = p (pim_ s))
  /\ (valid r = false -> pim r = PimC_default).
Proof.
  intros E. pose proof E as E'.
  apply Preintegrate_Returned in E'. destruct E' as [site E'].
  pose proof (Preintegrate_at_accumulator _ _ _ _ _ _ E') as Hacc.
  split; [|split; [|split]].
  - destruct site; rewrite Hacc; reflexivity.
  - destruct site; rewrite Hacc; reflexivity.
  - intros Hv. apply (Preintegrate_valid_Integrated _ _ _ _ _ E) in Hv.
    apply Preintegrate_at_result_seed in Hv.
    apply resetIntegration_seed in Hv. destruct Hv as [Hp Hb].
    split; [exact Hb | exact Hp].
  - intros Hv.
    pose proof (Preintegrate_at_spec from to (ResetAndUpdateBias bias s)) as S.
    rewrite E' in S. destruct S as [_ S].
    destruct site; destruct S as [S _]; try (rewrite S; reflexivity).
    rewrite S in Hv. discriminate Hv.
Qed.

(** X12: the bias and the accumulator have no say in what a call consumes:
    after [ResetAndUpdateBias], [Preintegrate] leaves by the same [return],
    with the same validity and time range, and leaves the same buffer as it
    would have without it. *)
Theorem Preintegrate_independent_of_bias bias from to s :
  call_summary (Preintegrate_at from to (ResetAndUpdateBias bias s))
  = call_summary (Preintegrate_at from to s).
Proof.
  unfold ResetAndUpdateBias, Preintegrate_at, Preintegrate_start,
    Preintegrate_finish, ThreadsafeQueue.Empty, ThreadsafeQueue.Pop, buffer.
  destruct s as [prm [mx drop items] pp pm]. simpl.
  destruct items as [|m0 rest]; simpl; [reflexivity|].
  destruct (anchor_loop from m0 rest) as [[imu l1]|]; [|reflexivity].
  destruct (Qltb (allowed_misalignment_sec prm)
              (offset_from_sec from (seconds_of imu))); [reflexivity|].
  simpl.
  pose proof (integrate_loop_frame to imu (seconds_of imu)
                (integrate_offset imu (offset_from_sec from (seconds_of imu))
                   (resetIntegrationAndSetBias bias pm))
                (integrate_offset imu (offset_from_sec from (seconds_of imu))
                   pm) l1) as F.
  destruct (integrate_loop to imu (seconds_of imu)
              (integrate_offset imu (offset_from_sec from (seconds_of imu))
                 (resetIntegrationAndSetBias bias pm)) l1)
    as [[l2 imu2] pm2].
  destruct (integrate_loop to imu (seconds_of imu)
              (integrate_offset imu (offset_from_sec from (seconds_of imu))
                 pm) l1)
    as [[l3 imu3] pm3].
  simpl in F. injection F as -> ->. simpl.
  destruct (Qltb (allowed_misalignment_sec prm)
              (offset_to_sec to (seconds_of imu3))); reflexivity.
Qed.

(** ** Reachable states *)

(** X13: in every state a manager can reach, the accumulator is at
    identity, it holds the noise parameters of the manager, and these are
    the ones the constructor derives from the parameters. *)
Theorem reachable_invariant s :
  reachable s ->
  at_identity (pim_ s)
  /\ p (pim_ s) = Some (pim_params_ s)
  /\ pim_params_ s = pim_params_ (ImuManager_new (params_ s)).
Proof.
  intros Hr. split; [exact (reachable_at_identity s Hr)|].
  induction Hr as [prm|imu s _ IH|from to s r s' _ IH E|bias s _ IH|time s _ IH].
  - split; reflexivity.
  - exact IH.
  - apply Preintegrate_Returned in E. destruct E as [site E].
    pose proof (Preintegrate_at_state _ _ _ _ _ E) as Hst.
    pose proof (Preintegrate_at_accumulator _ _ _ _ _ _ E) as Hacc.
    assert (Hp : p (pim_ s') = p (pim_ s))
      by (destruct site; rewrite Hacc; reflexivity).
    rewrite Hp. rewrite Hst. simpl. exact IH.
  - exact IH.
  - exact IH.
Qed.

End PreintegrationResult.

(** ** The further properties on concrete inputs *)

Ltac concrete_order := repeat constructor; vm_compute; discriminate.

Ltac concrete_valid E :=
  vm_compute in E; injection E as <- <-; reflexivity.

Lemma Preintegrate_valid_range_witness :
  match Preintegrate 1 (7 # 2) (manager_with 1 [1; 2; 3]%Z) with
  | Returned r s' =>
      valid r = true
      /\ Qabs (from_time r - 1) <= 1 /\ Qabs (to_time r - (7 # 2)) <= 1
  | PeekFrontOnEmpty => False
  end.
Proof.
  destruct (Preintegrate 1 (7 # 2) (manager_with 1 [1; 2; 3]%Z))
    as [r s'|] eqn:E; [|vm_compute in E; discriminate E].
  assert (Hv : valid r = true) by concrete_valid E.
  destruct (Preintegrate_valid_range _ _ _ _ _ E Hv) as [_ [Hf Ht]].
  split; [exact Hv|]. split.
  - apply Hf. vm_compute. discriminate.
  - apply Ht. vm_compute. discriminate.
Defined.

Lemma Preintegrate_positive_durations_witness :
  match Preintegrate 1 (7 # 2) (manager_with 1 [1; 2; 3]%Z) with
  | Returned r s' => positive_durations (pim r)
  | PeekFrontOnEmpty => False
  end.
Proof.
  destruct (Preintegrate 1 (7 # 2) (manager_with 1 [1; 2; 3]%Z))
    as [r s'|] eqn:E; [|vm_compute in E; discriminate E].
  apply (Preintegrate_positive_durations _ _ _ _ _ E). reflexivity.
Defined.


Lemma Preintegrate_consumes_window_witness :
  match Preintegrate 1 (5 # 2) (manager_with 1 [1; 2; 3; 4]%Z) with
  | Returned r s' =>
      valid r = true
      /\ Forall (fun m => 5 # 2 <= seconds_of m) (buffer s')
  | PeekFrontOnEmpty => False
  end.
Proof.
  destruct (Preintegrate 1 (5 # 2) (manager_with 1 [1; 2; 3; 4]%Z))
    as [r s'|] eqn:E; [|vm_compute in E; discriminate E].
  assert (Hv : valid r = true) by concrete_valid E.
  assert (Hs : time_ordered (buffer (manager_with 1 [1; 2; 3; 4]%Z)))
    by concrete_order.
  split; [exact Hv|].
  destruct (Preintegrate_consumes_window _ _ _ _ _ E Hv Hs)
    as [_ [_ [_ [Hto _]]]].
  exact Hto.
Defined.

Lemma Preintegrate_successive_ranges_witness :
  match Preintegrate 1 (5 # 2) (manager_with 1 [1; 2; 3; 4; 5; 6]%Z) with
  | Returned r1 s1 =>
      match Preintegrate (5 # 2) (9 # 2) s1 with
      | Returned r2 s2 =>
          valid r1 = true /\ valid r2 = true
          /\ to_time r1 <= from_time r2 /\ 5 # 2 <= from_time r2
      | PeekFrontOnEmpty => False
      end
  | PeekFrontOnEmpty => False
  end.
Proof.
  destruct (Preintegrate 1 (5 # 2) (manager_with 1 [1; 2; 3; 4; 5; 6]%Z))
    as [r1 s1|] eqn:E1; [|vm_compute in E1; discriminate E1].
  assert (Hv1 : valid r1 = true) by concrete_valid E1.
  assert (Hs : time_ordered (buffer (manager_with 1 [1; 2; 3; 4; 5; 6]%Z)))
    by concrete_order.
  destruct (Preintegrate (5 # 2) (9 # 2) s1) as [r2 s2|] eqn:E2.
  - assert (Hv2 : valid r2 = true).
    { vm_compute in E1. injection E1 as <- <-. concrete_valid E2. }
    destruct (Preintegrate_successive_ranges _ _ _ _ _ _ _ _ _
                E1 Hv1 Hs E2 Hv2) as [H1 [H2 _]].
    repeat split; assumption.
  - vm_compute in E1. injection E1 as <- <-.
    vm_compute in E2. discriminate E2.
Defined.

Lemma Preintegrate_after_ResetAndUpdateBias_witness :
  match Preintegrate 1 (7 # 2)
          (ResetAndUpdateBias
             (mkImuBias (mkVector3d (1 # 10) 0 0) (mkVector3d 0 (1 # 100) 0))
             (manager_with 1 [1; 2; 3]%Z)) with
  | Returned r s' =>
      valid r = true
      /\ biasHat (pim r)
         = mkImuBias (mkVector3d (1 # 10) 0 0) (mkVector3d 0 (1 # 100) 0)
      /\ biasHat (pim_ s')
         = mkImuBias (mkVector3d (1 # 10) 0 0) (mkVector3d 0 (1 # 100) 0)
  | PeekFrontOnEmpty => False
  end.
Proof.
  destruct (Preintegrate 1 (7 # 2)
              (ResetAndUpdateBias
                 (mkImuBias (mkVector3d (1 # 10) 0 0)
                    (mkVector3d 0 (1 # 100) 0))
                 (manager_with 1 [1; 2; 3]%Z)))
    as [r s'|] eqn:E; [|vm_compute in E; discriminate E].
  assert (Hv : valid r = true) by concrete_valid E.
  destruct (Preintegrate_after_ResetAndUpdateBias _ _ _ _ _ _ E)
    as [_ [Hb [Hr _]]].
  split; [exact Hv|]. split; [apply Hr; exact Hv | exact Hb].
Defined.

Lemma reachable_invariant_witness :
  reachable (manager_with 1 [1; 2]%Z)
  /\ at_identity (pim_ (manager_with 1 [1; 2]%Z))
  /\ p (pim_ (manager_with 1 [1; 2]%Z))
     = Some (pim_params_ (manager_with 1 [1; 2]%Z)).
Proof.
  pose proof (reachable_manager_with 1 [1; 2]%Z) as Hr.
  split; [exact Hr|].
  destruct (reachable_invariant _ Hr) as [Hid [Hp _]].
  split; [exact Hid | exact Hp].
Defined.

(** ** The object mesher *)

Lemma quot_above_one (ksize downsize : Z) :
  (0 < downsize)%Z ->
  ((1 < Z.quot ksize downsize)%Z <-> (2 * downsize <= ksize)%Z).
Proof.
  intros Hd. destruct (Z_lt_le_dec ksize 0) as [Hneg|Hnn].
  - split; [|lia]. intros Hq. exfalso.
    assert (Hle : (Z.quot ksize downsize <= 0)%Z)
      by (apply Z.quot_le_upper_bound; lia).
    lia.
  - rewrite Z.quot_div_nonneg by lia. split; intros Hq.
    + assert (Hm : (downsize * (ksize / downsize) <= ksize)%Z)
        by (apply Z.mul_div_le; lia).
      nia.
    + assert (Hge : (2 <= ksize / downsize)%Z)
        by (apply Z.div_le_lower_bound; lia).
      lia.
Qed.

Lemma int32_wrap_small (z : Z) :
  (- 2 ^ 31 <= z < 2 ^ 31)%Z -> mesher.int32_wrap z = z.
Proof.
  intros Hz. unfold mesher.int32_wrap.
  change (2 ^ 31)%Z with 2147483648%Z in *.
  change (2 ^ 32)%Z with 4294967296%Z.
  rewrite Z.mod_small by lia. lia.
Qed.

Lemma int32_wrap_over (z : Z) :
  (2 ^ 31 <= z < 2 ^ 32)%Z -> mesher.int32_wrap z = (z - 2 ^ 32)%Z.
Proof.
  intros Hz. unfold mesher.int32_wrap.
  change (2 ^ 31)%Z with 2147483648%Z in *.
  change (2 ^ 32)%Z with 4294967296%Z in *.
  replace (z + 2147483648)%Z with (z - 2147483648 + 1 * 4294967296)%Z by lia.
  rewrite Z.mod_add by lia. rewrite Z.mod_small by lia. lia.
Qed.

(** X14: [EstimateForegroundMask] passes its two checks exactly when
    [downsize] is between 1 and 8 and [ksize] is at least twice [downsize];
    so the call of [ProcessStereo], with a [downsize] of 4, needs a
    [foreground_ksize] of 8 or more.  The kernel it then builds is a square
    anchored at [ksize / downsize], at least 2.  For an [int] [ksize], when
    [downsize] is 2 or more or [ksize] is below 2^30, its width is twice
    the anchor plus one: odd, at least 5, an [int], the anchor at the
    centre.  With a [downsize] of 1 and a [ksize] of 2^30 or more, line 28
    overflows and the width handed to OpenCV is negative. *)
Theorem EstimateForegroundMask_kernel_checks (ksize downsize : Z) :
  ((exists k, mesher.EstimateForegroundMask_kernel ksize downsize = Some k)
   <-> (1 <= downsize <= 8 /\ 2 * downsize <= ksize)%Z)
  /\ ((exists k, mesher.EstimateForegroundMask_kernel ksize 4 = Some k)
      <-> (8 <= ksize)%Z)
  /\ (forall k,
        mesher.EstimateForegroundMask_kernel ksize downsize = Some k ->
        (mesher.kernel_height k = mesher.kernel_width k
         /\ mesher.anchor_y k = mesher.anchor_x k
         /\ mesher.anchor_x k = Z.quot ksize downsize
         /\ 2 <= mesher.anchor_x k
         /\ (ksize <= mesher.INT_MAX ->
             2 <= downsize \/ ksize < 2 ^ 30 ->
             mesher.kernel_width k = 2 * mesher.anchor_x k + 1
             /\ 5 <= mesher.kernel_width k <= mesher.INT_MAX)
         /\ (downsize = 1 ->
             2 ^ 30 <= ksize <= mesher.INT_MAX ->
             mesher.kernel_width k = 2 * ksize + 1 - 2 ^ 32
             /\ mesher.INT_MIN < mesher.kernel_width k < 0))%Z).
Proof.
  assert (General : forall d,
    (exists k, mesher.EstimateForegroundMask_kernel ksize d = Some k)
    <-> (1 <= d <= 8 /\ 2 * d <= ksize)%Z).
  { intros d. unfold mesher.EstimateForegroundMask_kernel.
    destruct ((1 <=? d)%Z && (d <=? 8)%Z) eqn:Ed.
    - apply andb_true_iff in Ed. destruct Ed as [E1 E2].
      apply Z.leb_le in E1. apply Z.leb_le in E2.
      destruct (1 <? Z.quot ksize d)%Z eqn:Eq.
      + apply Z.ltb_lt in Eq. apply quot_above_one in Eq; [|lia].
        split; [intros _; lia|]. intros _. eexists. reflexivity.
      + apply Z.ltb_ge in Eq. split.
        * intros [k C]. discriminate C.
        * intros [_ C]. apply quot_above_one in C; lia.
    - split.
      + intros [k C]. discriminate C.
      + intros [[C1 C2] _]. exfalso.
        apply andb_false_iff in Ed. destruct Ed as [Ed|Ed].
        * apply Z.leb_gt in Ed. lia.
        * apply Z.leb_gt in Ed. lia. }
  split; [apply General|]. split.
  - rewrite General. lia.
  - intros k. unfold mesher.EstimateForegroundMask_kernel.
    destruct ((1 <=? downsize)%Z && (downsize <=? 8)%Z) eqn:Ed;
      [|discriminate].
    apply andb_true_iff in Ed. destruct Ed as [E1 E2].
    apply Z.leb_le in E1. apply Z.leb_le in E2.
    destruct (1 <? Z.quot ksize downsize)%Z eqn:Eq; [|discriminate].
    apply Z.ltb_lt in Eq.
    assert (Hk2 : (2 * downsize <= ksize)%Z)
      by (apply quot_above_one; [lia | exact Eq]).
    assert (Hdiv : (Z.quot ksize downsize = ksize / downsize)%Z)
      by (apply Z.quot_div_nonneg; lia).
    assert (Hmul : (downsize * (ksize / downsize) <= ksize)%Z)
      by (apply Z.mul_div_le; lia).
    remember (mesher.int32_wrap (2 * Z.quot ksize downsize + 1)) as width
      eqn:Hw.
    remember (Z.quot ksize downsize) as q eqn:Hq0.
    intros E. inversion E as [Hk]. clear E Hk.
    cbn [mesher.kernel_width mesher.kernel_height mesher.anchor_x
         mesher.anchor_y].
    unfold mesher.INT_MAX, mesher.INT_MIN.
    change (2 ^ 30)%Z with 1073741824%Z.
    change (2 ^ 31)%Z with 2147483648%Z.
    change (2 ^ 32)%Z with 4294967296%Z.
    split; [reflexivity|]. split; [reflexivity|]. split; [reflexivity|].
    split; [lia|]. split.
    + intros Hint Hsafe.
      assert (Hq : (2 * q + 1 < 2147483648)%Z) by nia.
      rewrite int32_wrap_small in Hw
        by (change (2 ^ 31)%Z with 2147483648%Z; lia).
      subst width. lia.
    + intros Hd Hbig. subst downsize. rewrite Z.div_1_r in Hdiv.
      rewrite Hdiv in Hw.
      rewrite int32_wrap_over in Hw
        by (change (2 ^ 31)%Z with 2147483648%Z;
            change (2 ^ 32)%Z with 4294967296%Z; lia).
      change (2 ^ 32)%Z with 4294967296%Z in Hw.
      subst width. lia.
Qed.

(** On the smallest [ksize] that overflows line 28 the width is the most
    negative odd [int]. *)
Lemma EstimateForegroundMask_kernel_overflow :
  mesher.EstimateForegroundMask_kernel (2 ^ 30) 1
  = Some (mesher.mkStructuringElement (-2147483647) (-2147483647)
            1073741824 1073741824).
Proof. reflexivity. Qed.

Section EdgePixelsProperties.

Variables Image1b Point2f Point : Type.
Variable LineIterator : Image1b -> Point2f -> Point2f -> list Point.
Variable at_uint8 : Image1b -> Point -> Z.

Lemma count_loop (mask : Image1b) (l : list Point) (c : Z) :
  fold_left
    (fun edge_sum pos =>
       (edge_sum + (if (0 <? at_uint8 mask pos)%Z then 1 else 0))%Z) l c
  = (c + Z.of_nat
           (length (filter (fun pos => (0 <? at_uint8 mask pos)%Z) l)))%Z.
Proof.
  revert c. induction l as [|x l IH]; intros c; simpl; [lia|].
  rewrite IH. destruct (0 <? at_uint8 mask x)%Z; simpl; lia.
Qed.

Lemma filter_length_full {A} (f : A -> bool) (l : list A) :
  length (filter f l) = length l <-> Forall (fun x => f x = true) l.
Proof.
  induction l as [|x l IH]; simpl.
  - split; [constructor | reflexivity].
  - pose proof (filter_length_le f l) as Hle.
    destruct (f x) eqn:E; simpl.
    + split.
      * intros EL. constructor; [exact E|]. apply IH. lia.
      * intros F. inversion F; subst. f_equal. apply IH. assumption.
    + split.
      * intros EL. lia.
      * intros F. inversion F; subst. congruence.
Qed.

(** X15: [CountEdgePixels] returns as [edge_length] the number of pixels
    the line iterator visits and as [edge_sum] the number of those that are
    non-zero in the mask; so [edge_sum] lies between 0 and [edge_length],
    and equals [edge_length] exactly when every visited pixel is non-zero. *)
Theorem CountEdgePixels_counts (a b : Point2f) (mask : Image1b) :
  let it := LineIterator mask a b in
  let edge_sum :=
    fst (mesher.CountEdgePixels Image1b Point2f Point LineIterator at_uint8
           a b mask) in
  let edge_length :=
    snd (mesher.CountEdgePixels Image1b Point2f Point LineIterator at_uint8
           a b mask) in
  edge_length = Z.of_nat (length it)
  /\ edge_sum
     = Z.of_nat (length (filter (fun pos => (0 <? at_uint8 mask pos)%Z) it))
  /\ (0 <= edge_sum <= edge_length)%Z
  /\ (edge_sum = edge_length
      <-> Forall (fun pos => (0 < at_uint8 mask pos)%Z) it).
Proof.
  unfold mesher.CountEdgePixels. simpl. rewrite count_loop. simpl.
  pose proof (filter_length_le (fun pos => (0 <? at_uint8 mask pos)%Z)
                (LineIterator mask a b)) as Hle.
  split; [reflexivity|]. split; [reflexivity|]. split; [lia|].
  rewrite Nat2Z.inj_iff, filter_length_full.
  split; apply Forall_impl; intros x Hx.
  - apply Z.ltb_lt. exact Hx.
  - apply Z.ltb_lt. exact Hx.
Qed.

End EdgePixelsProperties.

(** ** Preintegrate: the tolerance and the sentinels *)

Section PreintegrationTolerance.

Context `{Timestamps}.

(** X16: with a tolerance that is not negative, a sentinel bound switches
    its misalignment check off: a call from [kMinSeconds] never returns at
    line 58, a call up to [kMaxSeconds] never returns at line 83. *)
Theorem Preintegrate_sentinel_bounds from to s site r s' :
  0 <= allowed_misalignment_sec (params_ s) ->
  Preintegrate_at from to s = Returned (site, r) s' ->
  (from == kMinSeconds -> site <> FromMisaligned)
  /\ (to == kMaxSeconds -> site <> ToMisaligned).
Proof.
  intros Htol E. pose proof (Preintegrate_at_spec from to s) as S.
  rewrite E in S. destruct S as [_ S]. split; intros Hs ->.
  - destruct S as [_ [_ [skipped [anchor [_ Hoff]]]]].
    unfold offset_from_sec in Hoff.
    apply Qneb_false in Hs. rewrite Hs in Hoff.
    apply (Qlt_not_le _ _ Hoff). exact Htol.
  - destruct S as [_ [_ [skipped [anchor [window [_ [_ [_ Hoff]]]]]]]].
    unfold offset_to_sec in Hoff.
    apply Qneb_false in Hs. rewrite Hs in Hoff.
    apply (Qlt_not_le _ _ Hoff). exact Htol.
Qed.

(** X17: with a negative tolerance no call of [Preintegrate] returns a
    valid result. *)
Theorem Preintegrate_negative_tolerance from to s r s' :
  allowed_misalignment_sec (params_ s) < 0 ->
  Preintegrate from to s = Returned r s' ->
  valid r = false.
Proof.
  intros Htol E. destruct (valid r) eqn:Hv; [|reflexivity]. exfalso.
  apply (Preintegrate_valid_Integrated _ _ _ _ _ E) in Hv.
  pose proof (Preintegrate_at_spec from to s) as S. rewrite Hv in S.
  destruct S as [_ [_ [_ [skipped [anchor [window
    [_ [_ [_ [_ [_ [Hfrom _]]]]]]]]]]]].
  apply (Qlt_not_le _ _ Htol).
  apply Qle_trans with (offset_from_sec from (seconds_of anchor)).
  - apply offset_from_sec_nonneg.
  - exact Hfrom.
Qed.

End PreintegrationTolerance.

Lemma Preintegrate_sentinel_bounds_witness :
  match Preintegrate_at kMinSeconds kMaxSeconds
          (manager_with 0 [1; 2; 3]%Z) with
  | Returned (site, r) s' =>
      0 <= allowed_misalignment_sec (params_ (manager_with 0 [1; 2; 3]%Z))
      /\ site <> FromMisaligned /\ site <> ToMisaligned
  | PeekFrontOnEmpty => False
  end.
Proof.
  destruct (Preintegrate_at kMinSeconds kMaxSeconds
              (manager_with 0 [1; 2; 3]%Z)) as [[site r] s'|] eqn:E;
    [|vm_compute in E; discriminate E].
  assert (Htol : 0 <= allowed_misalignment_sec
                        (params_ (manager_with 0 [1; 2; 3]%Z)))
    by (vm_compute; discriminate).
  split; [exact Htol|].
  destruct (Preintegrate_sentinel_bounds _ _ _ _ _ _ Htol E) as [Hf Ht].
  split; [apply Hf | apply Ht]; reflexivity.
Defined.

Lemma Preintegrate_negative_tolerance_witness :
  match Preintegrate 1 (7 # 2) (manager_with (-1 # 10) [1; 2; 3]%Z) with
  | Returned r s' =>
      allowed_misalignment_sec
        (params_ (manager_with (-1 # 10) [1; 2; 3]%Z)) < 0
      /\ valid r = false
  | PeekFrontOnEmpty => False
  end.
Proof.
  destruct (Preintegrate 1 (7 # 2) (manager_with (-1 # 10) [1; 2; 3]%Z))
    as [r s'|] eqn:E; [|vm_compute in E; discriminate E].
  assert (Htol : allowed_misalignment_sec
                   (params_ (manager_with (-1 # 10) [1; 2; 3]%Z)) < 0)
    by reflexivity.
  split; [exact Htol|].
  apply (Preintegrate_negative_tolerance _ _ _ _ _ Htol E).
Defined.

(** ** Preintegrate: the anchor *)

Section PreintegrationAnchor.

Context `{Timestamps}.

Lemma Preintegrate_start_anchor from s imu s1 :
  Preintegrate_start from s = Continue imu s1 ->
  buffer s = imu :: buffer s1 \/ seconds_of imu <= from.
Proof.
  unfold Preintegrate_start, ThreadsafeQueue.Empty, ThreadsafeQueue.Pop, buffer.
  destruct (ThreadsafeQueue.items (queue_ s)) as [|m0 rest]; [discriminate|].
  simpl. destruct (anchor_loop from m0 rest) as [[anchor l1]|] eqn:L;
    [|discriminate].
  destruct (Qltb (allowed_misalignment_sec (params_ s))
              (offset_from_sec from (seconds_of anchor))); [discriminate|].
  intros E; injection E as <- <-. simpl.
  apply anchor_loop_Some in L. destruct L as [skipped [Hl [_ Hle]]].
  destruct skipped as [|x skipped]; simpl in Hl, Hle.
  - left. exact Hl.
  - right. apply Forall_app in Hle. destruct Hle as [_ Hle].
    inversion Hle; assumption.
Qed.

(** X18: the range of a valid result starts at the first sample of the
    buffer or at a sample at or before [from_time]: the anchor search keeps
    popping while the next sample is not later than [from_time]. *)
Theorem Preintegrate_valid_anchor from to s r s' :
  Preintegrate from to s = Returned r s' ->
  valid r = true ->
  (exists m rest, buffer s = m :: rest /\ from_time r = seconds_of m)
  \/ from_time r <= from.
Proof.
  intros E Hv. apply (Preintegrate_valid_Integrated _ _ _ _ _ E) in Hv.
  apply Preintegrate_at_Integrated in Hv.
  destruct Hv as [imu [s1 [l2 [imu' [pm [Hstart [_ ->]]]]]]].
  simpl. destruct (Preintegrate_start_anchor _ _ _ _ Hstart) as [Hb|Hle].
  - left. exists imu, (buffer s1). split; [exact Hb | reflexivity].
  - right. exact Hle.
Qed.

End PreintegrationAnchor.

Lemma Preintegrate_valid_anchor_witness :
  match Preintegrate (5 # 2) (9 # 2) (manager_with 1 [1; 2; 3; 4]%Z) with
  | Returned r s' => valid r = true /\ from_time r <= 5 # 2
  | PeekFrontOnEmpty => False
  end.
Proof.
  destruct (Preintegrate (5 # 2) (9 # 2) (manager_with 1 [1; 2; 3; 4]%Z))
    as [r s'|] eqn:E; [|vm_compute in E; discriminate E].
  assert (Hv : valid r = true) by concrete_valid E.
  split; [exact Hv|].
  destruct (Preintegrate_valid_anchor _ _ _ _ _ E Hv)
    as [[m [rest [Hb Hf]]]|Hle]; [|exact Hle].
  exfalso. injection Hb as <- _.
  vm_compute in E. injection E as <- _. vm_compute in Hf. discriminate Hf.
Defined.
